(** * Rate governance of the OpenAI gateway (app/core/ai_gateway.py)

    A shallow embedding of the gateway [call_openai_rate_limited], of the
    per-key semaphore registry [_get_sem_for], of [OpenAIRateLimitError],
    of the low-level caller [call_openai_api] and of
    [extract_text_from_response] (app/core/openai_client.py).

    Python floats that the gateway and the limiter manipulate (clock
    readings, [retry_after]) are modelled as exact rationals [Q]; Python's
    [int(x)] on them truncates toward zero ([Z.quot]). *)

From Stdlib Require Import QArith Qround Lqa.
From stdpp Require Import base gmap strings list.

Open Scope Z_scope.

(* ------------------------------------------------------------------ *)
(** ** Python values used by the code *)

(** JSON values as returned by [resp.json()]; an object keeps its keys in
    order, with no duplicates (a parsed Python dict). *)
#[warnings="-register-all"]
Inductive json :=
| JNull
| JBool (b : bool)
| JNum (q : Q)
| JStr (s : string)
| JArr (l : list json)
| JObj (kvs : list (string * json)).

(** [d.get(k)] on an association list. *)
Fixpoint assoc {A} (k : string) (kvs : list (string * A)) : option A :=
  match kvs with
  | [] => None
  | (k', v) :: rest => if String.eqb k k' then Some v else assoc k rest
  end.

(** Decimal rendering of an integer, Python's [str(int)]. *)
Fixpoint digits_aux (fuel : nat) (n : N) (acc : string) : string :=
  match fuel with
  | O => acc
  | S f =>
      let acc' := String (Ascii.ascii_of_N (48 + N.modulo n 10)) acc in
      if (n <? 10)%N then acc' else digits_aux f (n / 10)%N acc'
  end.

Definition string_of_N (n : N) : string := digits_aux (S (N.size_nat n)) n "".

Definition string_of_Z (z : Z) : string :=
  if z <? 0 then String.append "-" (string_of_N (Z.to_N (- z)))
  else string_of_N (Z.to_N z).

(** Python's [int(x)] for a (finite) float: truncation toward zero. *)
Definition py_int (x : Q) : Z := Z.quot (Qnum x) (Zpos (Qden x)).

(** A value stored in [BucketFullException.meta_info]: a number, or
    another value (a string), of which [float(...)] is taken to fail (caught
    by the [except Exception]). *)
Inductive meta_val := MNum (q : Q) | MBad.

(** [fastapi.HTTPException] fields. *)
Record http_exc := {
  status_code : Z;
  detail : string;
  headers : list (string * string)
}.

(** The exceptions that reach the gateway.  [BucketFullException] carries
    [meta_info] ([None] when the attribute is missing or falsy, so that
    [getattr(e, "meta_info", {}) or {}] yields the empty dict). *)
Inductive exn :=
| BucketFullException (meta_info : option (list (string * meta_val)))
| OpenAIRateLimitError (h : http_exc)
| RuntimeError (msg : string)
| RequestException (msg : string)
| JSONDecodeError.

Inductive outcome := Ret (v : json) | Exc (e : exn).

Definition is_rate_limit_exc (e : exn) : bool :=
  match e with OpenAIRateLimitError _ => true | _ => false end.

Definition outcome_is_rate_limit (o : outcome) : bool :=
  match o with Exc e => is_rate_limit_exc e | Ret _ => false end.

(* ------------------------------------------------------------------ *)
(** ** OpenAIRateLimitError.__init__ *)

(** [str(int(retry_after + 0.999))] *)
Definition retry_after_value (retry_after : Q) : string :=
  string_of_Z (py_int (retry_after + (999 # 1000))%Q).

Definition rate_limit_headers (retry_after : option Q) : list (string * string) :=
  match retry_after with
  | Some r => if Qle_bool 0%Q r then [("Retry-After", retry_after_value r)] else []
  | None => []
  end.

Definition mk_OpenAIRateLimitError (d : string) (retry_after : option Q) : exn :=
  OpenAIRateLimitError {| status_code := 429; detail := d;
                          headers := rate_limit_headers retry_after |}.

(* ------------------------------------------------------------------ *)
(** ** Configuration *)

Record config := {
  OPENAI_RPM_PER_KEY : Z;
  OPENAI_RPM_FAIL_FAST : bool;
  OPENAI_MAX_CONCURRENCY_PER_KEY : Z
}.

(** The [detail] string built in the [except BucketFullException] arm. *)
Definition rpm_detail (cfg : config) : string :=
  String.append "OpenAI RPM limit exceeded for API key. "
    (String.append "Configured limit: "
       (String.append (string_of_Z (OPENAI_RPM_PER_KEY cfg)) "/minute.")).

(** [reset_in] extraction: [float(meta["reset_in"])] when the key is there,
    [None] when it is absent or [float] raises. *)
Definition reset_in_of (meta : option (list (string * meta_val))) : option Q :=
  match meta with
  | None => None
  | Some m =>
      match assoc "reset_in" m with
      | Some (MNum q) => Some q
      | Some MBad => None
      | None => None
      end
  end.

(** The [except BucketFullException as e:] clause around the [with] body:
    any other exception is not caught and propagates unchanged. *)
Definition except_bucket_full (cfg : config) (e : exn) : exn :=
  match e with
  | BucketFullException meta =>
      mk_OpenAIRateLimitError (rpm_detail cfg) (reset_in_of meta)
  | _ => e
  end.

(* ------------------------------------------------------------------ *)
(** ** The low-level caller: call_openai_api *)

(** Arguments forwarded by the gateway. *)
Record request := {
  model : string;
  prompt_text : string;
  max_output_tokens : option Z;
  temperature_zero : bool
}.

(** What [requests.post] produces: a transport failure, or a response with
    a status, a body text and the result of [resp.json()] ([None] when the
    body is not JSON). *)
Inductive http_response :=
| ConnectionError (msg : string)
| HttpResp (status : Z) (text : string) (body : option json).

Definition call_openai_api (api_key : string) (rq : request)
    (resp : http_response) : outcome :=
  match resp with
  | ConnectionError m => Exc (RequestException m)
  | HttpResp st txt body =>
      if negb (st =? 200) then
        Exc (RuntimeError (String.append "OpenAI API error "
               (String.append (string_of_Z st) (String.append ": " txt))))
      else match body with Some j => Ret j | None => Exc JSONDecodeError end
  end.

(* ------------------------------------------------------------------ *)
(** ** The RPM limiter [_limiter]

    [_limiter] is pyrate-limiter's [Limiter(RequestRate(rpm, MINUTE),
    bucket_class=MemoryListBucket)]: the names the module imports
    ([RequestRate], [MemoryListBucket], [Limiter.ratelimit(identity,
    delay=...)]) are those of pyrate-limiter 2.x, whose [try_acquire] is
    embedded here.  A bucket is the list of admission times of one
    identity, oldest first, holding at most [rpm] items.  The model reads the
    clock [now] as the limiter's time; it leaves out the limiter's
    [round(time_function(), 3)] of that reading, which moves a window
    boundary by less than a millisecond.  With [delay=True] a full bucket
    makes the caller sleep (no step) until time has advanced. *)

Definition window : Q := 60.

(** Python's [round(x, 3)]: to the nearest multiple of 1/1000, ties to even. *)
Definition round_half_even_Q (x : Q) : Z :=
  let n := Qfloor x in
  let f := (x - inject_Z n)%Q in
  if negb (Qle_bool (1 # 2) f) then n
  else if negb (Qle_bool f (1 # 2)) then n + 1
  else if Z.even n then n else n + 1.

Definition round3 (x : Q) : Q := round_half_even_Q (x * 1000) # 1000.

(** [AbstractBucket.inspect_expired_items(time)]: the first (oldest) item
    later than [time] at index [log_idx] gives [volume - log_idx] unexpired
    items and [round(item - time, 3)] seconds until it expires; [(0, 0.0)]
    when there is none. *)
Fixpoint inspect_from (items : list Q) (time : Q) (volume log_idx : nat) : nat * Q :=
  match items with
  | [] => (0%nat, 0%Q)
  | log_item :: rest =>
      if negb (Qle_bool log_item time) then ((volume - log_idx)%nat, round3 (log_item - time))
      else inspect_from rest time volume (S log_idx)
  end.

Definition inspect_expired_items (items : list Q) (time : Q) : nat * Q :=
  inspect_from items time (length items) 0.

(** [BucketFullException(identity, rate, remaining_time).meta_info]: the
    keys [error], [identity], [rate] hold strings (modelled by [MBad]: the
    gateway never reads them) and [remaining_time] the float. *)
Definition bucket_full_meta (remaining_time : Q) : list (string * meta_val) :=
  [("error", MBad); ("identity", MBad); ("rate", MBad); ("remaining_time", MNum remaining_time)].

(** [Limiter.try_acquire(identity)] with one rate: a bucket below the limit
    takes the item; otherwise the unexpired items are counted, and the call
    raises when they fill the rate, or else drops the expired ones
    ([bucket.get(volume - item_count)]) and takes the item. *)
Definition try_acquire (rpm : Z) (now : Q) (bucket : list Q) : list Q + exn :=
  let volume := length bucket in
  if Z.of_nat volume <? rpm then inl (bucket ++ [now])
  else
    let '(item_count, remaining_time) := inspect_expired_items bucket (now - window) in
    if rpm <=? Z.of_nat item_count
    then inr (BucketFullException (Some (bucket_full_meta remaining_time)))
    else inl (drop (volume - item_count) bucket ++ [now]).

(* ------------------------------------------------------------------ *)
(** ** Process-wide state *)

Record globals := {
  now : Q;                           (** clock, in seconds *)
  sems : gmap string Z;              (** [_sems]: api_key -> semaphore value *)
  buckets : gmap string (list Q);    (** limiter buckets, per identity *)
  calls : list (string * request)    (** invocations of [call_openai_api] *)
}.

Definition set_sems (g : globals) (s : gmap string Z) : globals :=
  {| now := now g; sems := s; buckets := buckets g; calls := calls g |}.
Definition set_buckets (g : globals) (b : gmap string (list Q)) : globals :=
  {| now := now g; sems := sems g; buckets := b; calls := calls g |}.
Definition log_call (g : globals) (c : string * request) : globals :=
  {| now := now g; sems := sems g; buckets := buckets g; calls := calls g ++ [c] |}.

(** [_get_sem_for(api_key)]: [None] when limiting is disabled, otherwise the
    cached semaphore, created with value [max_conc] on first use (under
    [_sem_lock], so in one atomic step). *)
Definition _get_sem_for (cfg : config) (api_key : string) (s : gmap string Z)
    : option Z * gmap string Z :=
  let max_conc := OPENAI_MAX_CONCURRENCY_PER_KEY cfg in
  if max_conc <=? 0 then (None, s)
  else match s !! api_key with
       | Some v => (Some v, s)
       | None => (Some max_conc, <[api_key := max_conc]> s)
       end.

(* ------------------------------------------------------------------ *)
(** ** One invocation of call_openai_rate_limited, as a thread

    The program points of one call; [held] is "[sem is not None]", i.e. the
    thread acquired the semaphore of its key. *)
Inductive pc :=
| Start (key : string) (rq : request)
| Acquiring (key : string) (rq : request)
| Limiting (key : string) (rq : request) (held : bool)
| Calling (key : string) (rq : request) (held : bool)
| Releasing (key : string) (held : bool) (o : outcome)
| Done (o : outcome).

Definition pc_key (p : pc) : option string :=
  match p with
  | Start k _ | Acquiring k _ | Limiting k _ _ | Calling k _ _
  | Releasing k _ _ => Some k
  | Done _ => None
  end.

(** One atomic step of a thread; [None] when it is blocked (or finished).
    [resp] is what the network answers if the step is the HTTP call. *)
Definition thread_step (cfg : config) (g : globals) (p : pc)
    (resp : http_response) : option (globals * pc) :=
  match p with
  | Start k rq =>
      (* sem = _get_sem_for(api_key) *)
      let (sem, s') := _get_sem_for cfg k (sems g) in
      match sem with
      | None => Some (set_sems g s', Limiting k rq false)
      | Some _ => Some (set_sems g s', Acquiring k rq)
      end
  | Acquiring k rq =>
      (* sem.acquire(): blocks while the value is 0 *)
      match sems g !! k with
      | Some v => if 0 <? v then Some (set_sems g (<[k := v - 1]> (sems g)), Limiting k rq true)
                  else None
      | None => None
      end
  | Limiting k rq held =>
      (* with _limiter.ratelimit(api_key, delay=not OPENAI_RPM_FAIL_FAST) *)
      let log := default [] (buckets g !! k) in
      match try_acquire (OPENAI_RPM_PER_KEY cfg) (now g) log with
      | inl log' => Some (set_buckets g (<[k := log']> (buckets g)), Calling k rq held)
      | inr e =>
          if OPENAI_RPM_FAIL_FAST cfg
          then Some (g, Releasing k held (Exc (except_bucket_full cfg e)))
          else None
      end
  | Calling k rq held =>
      (* return call_openai_api(...), inside the try/except *)
      let o := match call_openai_api k rq resp with
               | Ret v => Ret v
               | Exc e => Exc (except_bucket_full cfg e)
               end in
      Some (log_call g (k, rq), Releasing k held o)
  | Releasing k held o =>
      (* finally: if sem is not None: sem.release() *)
      if held then
        match sems g !! k with
        | Some v => Some (set_sems g (<[k := v + 1]> (sems g)), Done o)
        | None => Some (g, Done o)
        end
      else Some (g, Done o)
  | Done _ => None
  end.

(** A whole call run alone, with enough fuel for its five steps; [None]
    when it blocks. *)
Fixpoint run_thread (fuel : nat) (cfg : config) (g : globals) (p : pc)
    (resp : http_response) : option (globals * outcome) :=
  match p with
  | Done o => Some (g, o)
  | _ =>
      match fuel with
      | O => None
      | S f =>
          match thread_step cfg g p resp with
          | Some (g', p') => run_thread f cfg g' p' resp
          | None => None
          end
      end
  end.

Definition call_openai_rate_limited (cfg : config) (g : globals) (api_key : string)
    (rq : request) (resp : http_response) : option (globals * outcome) :=
  run_thread 5 cfg g (Start api_key rq) resp.

(* ------------------------------------------------------------------ *)
(** ** Interleavings of many calls *)

Record state := { glob : globals; threads : list pc }.

Definition tick (g : globals) (dt : Q) : globals :=
  {| now := (now g + dt)%Q; sems := sems g; buckets := buckets g; calls := calls g |}.

Inductive step (cfg : config) : state -> state -> Prop :=
| step_thread st i p resp g' p' :
    threads st !! i = Some p ->
    thread_step cfg (glob st) p resp = Some (g', p') ->
    step cfg st {| glob := g'; threads := <[i := p']> (threads st) |}
| step_tick st dt :
    (0 < dt)%Q ->
    step cfg st {| glob := tick (glob st) dt; threads := threads st |}
| step_spawn st k rq :
    step cfg st {| glob := glob st; threads := threads st ++ [Start k rq] |}.

Definition init_state : state :=
  {| glob := {| now := 0%Q; sems := ∅; buckets := ∅; calls := [] |}; threads := [] |}.

Definition reachable (cfg : config) (st : state) : Prop := rtc (step cfg) init_state st.

(** Threads of key [k] that hold a semaphore slot. *)
Definition holds (k : string) (p : pc) : bool :=
  match p with
  | Limiting k' _ true | Calling k' _ true | Releasing k' true _ => String.eqb k' k
  | _ => false
  end.

Fixpoint holders (k : string) (ts : list pc) : nat :=
  match ts with
  | [] => 0%nat
  | p :: rest => ((if holds k p then 1 else 0) + holders k rest)%nat
  end.

(** The outcome a finished or finishing call carries. *)
Definition pc_outcome (p : pc) : option outcome :=
  match p with Releasing _ _ o | Done o => Some o | _ => None end.

(** A program point that neither waits on nor holds a semaphore. *)
Definition gate_free (p : pc) : bool :=
  match p with
  | Acquiring _ _ => false
  | Limiting _ _ h | Calling _ _ h | Releasing _ h _ => negb h
  | _ => true
  end.

Definition quiescent (st : state) : Prop := Forall (fun p => ∃ o, p = Done o) (threads st).

(* ------------------------------------------------------------------ *)
(** ** extract_text_from_response (app/core/openai_client.py) *)

(** The text returned: a string, or [str(v)] of a non-string JSON value
    (the [str(tv["value"])] branches). *)
Inductive text := Text (s : string) | StrOf (v : json).

Definition py_str (v : json) : text :=
  match v with JStr s => Text s | _ => StrOf v end.

(** The exceptions the function can raise. *)
Inductive extract_error :=
| KeyError_no_text        (** [raise KeyError("No text found in response payload")] *)
| TypeError_not_iterable  (** [for item in x] with [x] not iterable *)
| AttributeError_get.     (** [item.get(...)] on an item that is not a dict *)

(** [isinstance(tv, str)] / [isinstance(tv, dict) and "value" in tv]. *)
Definition text_field (tv : option json) : option text :=
  match tv with
  | Some (JStr s) => Some (Text s)
  | Some (JObj d) => match assoc "value" d with Some v => Some (py_str v) | None => None end
  | _ => None
  end.

(** One element [c] of [item["content"]]. *)
Definition block_text (c : json) : option text :=
  match c with
  | JObj cd =>
      match assoc "type" cd with
      | Some (JStr t) =>
          if String.eqb t "output_text" || String.eqb t "text" then text_field (assoc "text" cd)
          else None
      | _ => None
      end
  | _ => None
  end.

Fixpoint first_block (cs : list json) : option text :=
  match cs with
  | [] => None
  | c :: rest => match block_text c with Some t => Some t | None => first_block rest end
  end.

(** The body of [for item in data.get("output", [])]: [inl] an exception,
    [inr (Some t)] a [return], [inr None] falling through to the next item. *)
Definition item_text (item : json) : extract_error + option text :=
  match item with
  | JObj d =>
      match match assoc "content" d with Some (JArr cs) => first_block cs | _ => None end with
      | Some t => inr (Some t)
      | None => inr (text_field (assoc "text" d))
      end
  | _ => inl AttributeError_get
  end.

Fixpoint scan_items (items : list json) : extract_error + text :=
  match items with
  | [] => inl KeyError_no_text
  | it :: rest =>
      match item_text it with
      | inl e => inl e
      | inr (Some t) => inr t
      | inr None => scan_items rest
      end
  end.

(** What [for item in v] iterates over, for [v = data.get("output", [])]:
    a list's elements, a dict's keys, a string's characters; [None] when
    [v] is not iterable. *)
Definition iter_items (v : option json) : option (list json) :=
  match v with
  | None => Some []
  | Some (JArr l) => Some l
  | Some (JObj kvs) => Some (map (fun kv => JStr kv.1) kvs)
  | Some (JStr s) => Some (map (fun c => JStr (String c EmptyString)) (String.list_ascii_of_string s))
  | Some _ => None
  end.

Definition extract_text_from_response (data : list (string * json)) : extract_error + text :=
  match assoc "output_text" data with
  | Some (JStr s) => inr (Text s)
  | _ =>
      match assoc "content" data with
      | Some (JStr s) => inr (Text s)
      | _ =>
          match iter_items (assoc "output" data) with
          | None => inl TypeError_not_iterable
          | Some items => scan_items items
          end
      end
  end.

(** The shapes named by the spec: a direct top-level text field... *)
Definition top_level_text (data : list (string * json)) : option text :=
  match assoc "output_text" data with
  | Some (JStr s) => Some (Text s)
  | _ => match assoc "content" data with Some (JStr s) => Some (Text s) | _ => None end
  end.

(** ... and the payloads whose [output] is absent or a list of objects. *)
Definition is_obj (v : json) : Prop := match v with JObj _ => True | _ => False end.

Definition output_items (data : list (string * json)) : option (list json) :=
  match assoc "output" data with
  | None => Some []
  | Some (JArr l) => Some l
  | Some _ => None
  end.

(** The nested shapes of one output item: a matching content block, or
    the item's own [text] field. *)
Definition item_contents (it : json) : list json :=
  match it with
  | JObj d => match assoc "content" d with Some (JArr cs) => cs | _ => [] end
  | _ => []
  end.

Definition item_own_text (it : json) : option text :=
  match it with JObj d => text_field (assoc "text" d) | _ => None end.

Definition item_has_shape (it : json) (t : text) : Prop :=
  (∃ c, c ∈ item_contents it /\ block_text c = Some t) \/ item_own_text it = Some t.

Definition item_no_shape (it : json) : Prop :=
  (∀ c, c ∈ item_contents it -> block_text c = None) /\ item_own_text it = None.

(** The text an item yields when it is the first to match: its first
    matching content block, or else its own [text] field. *)
Definition item_first_shape (it : json) (t : text) : Prop :=
  (∃ cpre c cpost, item_contents it = cpre ++ c :: cpost /\
     Forall (fun c => block_text c = None) cpre /\ block_text c = Some t) \/
  ((∀ c, c ∈ item_contents it -> block_text c = None) /\ item_own_text it = Some t).

(* ------------------------------------------------------------------ *)
(** ** Schedules: executable runs of the machine *)

Inductive action :=
| ASpawn (k : string) (rq : request)
| AStep (i : nat) (resp : http_response)
| ATick (dt : Q).

Fixpoint run_sched (cfg : config) (st : state) (acts : list action) : option state :=
  match acts with
  | [] => Some st
  | ASpawn k rq :: rest =>
      run_sched cfg {| glob := glob st; threads := threads st ++ [Start k rq] |} rest
  | AStep i resp :: rest =>
      match threads st !! i with
      | Some p =>
          match thread_step cfg (glob st) p resp with
          | Some (g', p') => run_sched cfg {| glob := g'; threads := <[i := p']> (threads st) |} rest
          | None => None
          end
      | None => None
      end
  | ATick dt :: rest =>
      if Qle_bool dt 0 then None
      else run_sched cfg {| glob := tick (glob st) dt; threads := threads st |} rest
  end.

Definition sem_inv (cfg : config) (st : state) : Prop :=
  ∀ k, match sems (glob st) !! k with
       | Some v => 0 <= v /\ v + Z.of_nat (holders k (threads st)) = OPENAI_MAX_CONCURRENCY_PER_KEY cfg
       | None => holders k (threads st) = 0%nat
       end.

Definition gate_off_inv (st : state) : Prop :=
  sems (glob st) = ∅ /\ Forall (fun p => gate_free p = true) (threads st).

Definition no_rate_limit (st : state) : Prop :=
  Forall (fun p => match pc_outcome p with
                   | Some o => outcome_is_rate_limit o = false
                   | None => True end) (threads st).

Definition rejected_or_called (k : string) (rq : request) (resp : http_response)
    (g g' : globals) (o : outcome) : Prop :=
  (calls g' = calls g ++ [(k, rq)] /\ o = call_openai_api k rq resp) \/
  (calls g' = calls g /\ ∃ h, o = Exc (OpenAIRateLimitError h) /\ status_code h = 429).

(* ------------------------------------------------------------------ *)
(** ** Concrete inputs *)

Definition rq0 : request :=
  {| model := "gpt-4o-mini"; prompt_text := "p"; max_output_tokens := None; temperature_zero := false |}.

Definition resp_ok : http_response := HttpResp 200 "{}" (Some (JObj [("output_text", JStr "{}")])).

(** FAIL_FAST, one request per minute, admitted at t = 0 s; the next call
    for the same key comes at t = 58.8 s, 1.2 s before the window reopens. *)
Definition cfg_ff : config :=
  {| OPENAI_RPM_PER_KEY := 1; OPENAI_RPM_FAIL_FAST := true; OPENAI_MAX_CONCURRENCY_PER_KEY := 20 |}.

Definition g_reject : globals :=
  {| now := (588 # 10)%Q; sems := ∅; buckets := <["sk-a" := [0%Q]]> ∅; calls := [] |}.

(** A response whose first output item is not an object. *)
Definition data_odd_item : list (string * json) :=
  [("output", JArr [JNum 5; JObj [("text", JStr "hi")]])].

(** BLOCK mode, 480 requests per minute, two slots per key. *)
Definition cfg_block : config :=
  {| OPENAI_RPM_PER_KEY := 480; OPENAI_RPM_FAIL_FAST := false; OPENAI_MAX_CONCURRENCY_PER_KEY := 2 |}.

Definition cfg_nogate : config :=
  {| OPENAI_RPM_PER_KEY := 480; OPENAI_RPM_FAIL_FAST := true; OPENAI_MAX_CONCURRENCY_PER_KEY := 0 |}.

Definition g_empty : globals := glob init_state.

(** One whole call for "sk-a" that succeeds ... *)
Definition sched_ok : list action :=
  [ASpawn "sk-a" rq0; AStep 0 resp_ok; AStep 0 resp_ok; AStep 0 resp_ok; AStep 0 resp_ok;
   AStep 0 resp_ok].

(** ... then a second one whose HTTP request fails. *)
Definition sched_fail : list action :=
  let r := ConnectionError "timeout" in
  [ATick 1; ASpawn "sk-a" rq0; AStep 1 r; AStep 1 r; AStep 1 r; AStep 1 r; AStep 1 r].

Definition st_one : state := default init_state (run_sched cfg_block init_state sched_ok).
Definition st_two : state := default init_state (run_sched cfg_block st_one sched_fail).

(** A call for "sk-a" that has acquired its slot. *)
Definition st_holding : state :=
  default init_state (run_sched cfg_block init_state [ASpawn "sk-a" rq0; AStep 0 resp_ok; AStep 0 resp_ok]).

Definition data_blocks : list (string * json) :=
  [("id", JStr "resp_1");
   ("output", JArr [JObj [("type", JStr "message");
                          ("content", JArr [JObj [("type", JStr "output_text"); ("text", JStr "hello")]])]])].

(* ------------------------------------------------------------------ *)
(** ** Token budgets (app/core/token_calculator.py) *)

(** Binary64 numbers as [mant * 2^expo] (finite, normal range). *)
Record double := { mant : Z; expo : Z }.

(** [n / 2^s] rounded to nearest, ties to even ([0 <= n], [0 < s]). *)
Definition round_half_even_shift (n s : Z) : Z :=
  let q := n / 2 ^ s in
  let r := n - q * 2 ^ s in
  if 2 * r <? 2 ^ s then q
  else if 2 ^ s <? 2 * r then q + 1
  else if Z.even q then q else q + 1.

(** Rounding the exact value [n * 2^e] to 53 significant bits. *)
Definition round53 (n e : Z) : double :=
  let a := Z.abs n in
  if a <? 2 ^ 53 then {| mant := n; expo := e |}
  else let s := Z.log2 a - 52 in
       {| mant := Z.sgn n * round_half_even_shift a s; expo := e + s |}.

Definition float_of_int (n : Z) : double := round53 n 0.

Definition float_mul (x y : double) : double := round53 (mant x * mant y) (expo x + expo y).

(** [math.ceil] of a double. *)
Definition py_ceil (x : double) : Z :=
  if 0 <=? expo x then mant x * 2 ^ expo x else - ((- mant x) / 2 ^ (- expo x)).

(** The literal [0.9]: 8106479329266893 * 2^-53 is the double nearest 9/10. *)
Definition lit_0_9 : double := {| mant := 8106479329266893; expo := -53 |}.

Definition CHARS_PER_TOKEN : Z := 4.
Definition MIN_OUTPUT_TOKENS : Z := 16.
Definition EXTRACT_TOKEN_MULTIPLIER : Z := 8.
Definition CLASSIFY_DEFAULT_TOKENS : Z := 128.

Definition ACTION_TOKEN_BASE : Z := 512.
Definition ACTION_TOKEN_MULTIPLIER : double := float_mul (float_of_int EXTRACT_TOKEN_MULTIPLIER) lit_0_9.
Definition ACTION_MAX_OUTPUT_TOKENS : Z := 6144.

Definition approx_tokens_from_chars (n_chars : Z) : Z :=
  Z.max 1 ((n_chars + CHARS_PER_TOKEN - 1) / CHARS_PER_TOKEN).

(** [provided_tokens] is [None] or an int; [if provided_tokens:] is false
    for [None] and [0]. *)
Definition calculate_max_output_tokens (input_tokens : Z) (operation : string)
    (provided_tokens : option Z) : Z :=
  let t :=
    match provided_tokens with
    | Some p => if negb (p =? 0) then Some p else None
    | None => None
    end in
  let t :=
    match t with
    | Some p => p
    | None =>
        if String.eqb operation "classify" then CLASSIFY_DEFAULT_TOKENS
        else if String.eqb operation "extract" then input_tokens * EXTRACT_TOKEN_MULTIPLIER
        else if String.eqb operation "action" then
          let scaled := py_ceil (float_mul (float_of_int input_tokens) ACTION_TOKEN_MULTIPLIER) in
          Z.min (ACTION_TOKEN_BASE + scaled) ACTION_MAX_OUTPUT_TOKENS
        else MIN_OUTPUT_TOKENS
    end in
  Z.max MIN_OUTPUT_TOKENS t.

(* ------------------------------------------------------------------ *)
(** ** extract_first_json (app/core/json_processor.py) *)
Definition ch_lbrace : Ascii.ascii := Ascii.ascii_of_nat 123.
Definition ch_rbrace : Ascii.ascii := Ascii.ascii_of_nat 125.
Definition ch_quote : Ascii.ascii := Ascii.ascii_of_nat 34.
Definition ch_backslash : Ascii.ascii := Ascii.ascii_of_nat 92.

(** [text.find("{")]. *)
Fixpoint find_char (c : Ascii.ascii) (cs : list Ascii.ascii) : option nat :=
  match cs with
  | [] => None
  | d :: rest => if Ascii.eqb d c then Some 0%nat else option_map S (find_char c rest)
  end.

(** The loop [for i in range(start, len(text))], run on [text[i:]] with the
    loop state [(depth, in_str, esc)]; [Some n] when it breaks after
    consuming [n] characters ([end = i + 1]), [None] when it runs out. *)
Fixpoint scan_object (cs : list Ascii.ascii) (depth : Z) (in_str esc : bool) : option nat :=
  match cs with
  | [] => None
  | ch :: rest =>
      if in_str then
        if esc then option_map S (scan_object rest depth in_str false)
        else if Ascii.eqb ch ch_backslash then option_map S (scan_object rest depth in_str true)
        else if Ascii.eqb ch ch_quote then option_map S (scan_object rest depth false esc)
        else option_map S (scan_object rest depth in_str esc)
      else
        if Ascii.eqb ch ch_quote then option_map S (scan_object rest depth true esc)
        else if Ascii.eqb ch ch_lbrace then option_map S (scan_object rest (depth + 1) in_str esc)
        else if Ascii.eqb ch ch_rbrace then
          if (depth - 1 =? 0) then Some 1%nat
          else option_map S (scan_object rest (depth - 1) in_str esc)
        else option_map S (scan_object rest depth in_str esc)
  end.

Inductive json_value_error :=
| ValueError_no_start     (** "No JSON object start '{' found" *)
| ValueError_unbalanced.  (** "Unbalanced braces; could not find JSON object end '}'" *)

(** [text[start:end]], the text handed to [json.loads]. *)
Definition first_json_slice (text : list Ascii.ascii) : json_value_error + list Ascii.ascii :=
  match find_char ch_lbrace text with
  | None => inl ValueError_no_start
  | Some start =>
      match scan_object (drop start text) 0 false false with
      | None => inl ValueError_unbalanced
      | Some n => inr (take n (drop start text))
      end
  end.

(** [extract_first_json], given the behaviour of [json.loads]. *)
Definition extract_first_json (json_loads : list Ascii.ascii -> option json)
    (text : list Ascii.ascii) : json_value_error + option json :=
  match first_json_slice text with
  | inl e => inl e
  | inr s => inr (json_loads s)
  end.

(* ------------------------------------------------------------------ *)
(** ** Merging the batch results (app/core/parallel_executor.py) *)

(** The dict an [exec_one] returns: [{"success": True, "data": data}] or
    [{"success": False, "error": str(e)}]. *)
Inductive exec_result := RSuccess (data : json) | RFailure (error : string).

(** [d[k] = v] on a dict: an existing key keeps its position. *)
Fixpoint dict_set {A} (k : string) (v : A) (d : list (string * A)) : list (string * A) :=
  match d with
  | [] => [(k, v)]
  | (k', v') :: rest => if String.eqb k k' then (k', v) :: rest else (k', v') :: dict_set k v rest
  end.

(** [for fut in as_completed(futs): results[item.get("prompt_type", ...)] = res];
    every item built by the handlers has a [prompt_type]. *)
Definition collect_results (completed : list (string * exec_result)) : list (string * exec_result) :=
  fold_left (fun d '(k, r) => dict_set k r d) completed [].

Definition DESIRED_KEY_ORDER : list string :=
  ["contact"; "soft_skills"; "tech_skills"; "about"; "experience"; "projects"; "education"; "certifications"].

(** [for _, res in results.items(): if res.get("success") and isinstance(res.get("data"), dict) and key in res["data"]: ...; break] *)
Fixpoint first_with_key (key : string) (results : list (string * exec_result)) : option json :=
  match results with
  | [] => None
  | (_, RSuccess (JObj d)) :: rest =>
      match assoc key d with Some v => Some v | None => first_with_key key rest end
  | _ :: rest => first_with_key key rest
  end.

Definition desired_loop (results : list (string * exec_result)) (final : list (string * json)) :
    list (string * json) :=
  fold_left (fun f key => match first_with_key key results with
                          | Some v => dict_set key v f
                          | None => f end) DESIRED_KEY_ORDER final.

(** [for k, v in res["data"].items(): if k not in final_result: final_result[k] = v] *)
Definition add_missing (data : list (string * json)) (final : list (string * json)) : list (string * json) :=
  fold_left (fun f '(k, v) => match assoc k f with Some _ => f | None => dict_set k v f end) data final.

(** The second loop; [None] when [res["data"].items()] raises
    [AttributeError] (a successful result whose data is not a dict). *)
Fixpoint rest_loop (results : list (string * exec_result)) (final : list (string * json))
    (failed : list json) : option (list (string * json) * list json) :=
  match results with
  | [] => Some (final, failed)
  | (ptype, RSuccess (JObj d)) :: rest => rest_loop rest (add_missing d final) failed
  | (ptype, RSuccess _) :: rest => None
  | (ptype, RFailure err) :: rest =>
      rest_loop rest final (failed ++ [JObj [("prompt_type", JStr ptype); ("error", JStr err)]])
  end.

Definition merge_results (results : list (string * exec_result)) : option (list (string * json)) :=
  match rest_loop results (desired_loop results []) [] with
  | None => None
  | Some (final, failed) =>
      Some (match failed with
            | [] => final
            | _ => dict_set "_execution_errors" (JArr failed) final
            end)
  end.

(** What [execute_parallel_extraction] returns for the results of the
    prompts, in completion order. *)
Definition execute_parallel_extraction_merge (completed : list (string * exec_result)) :
    option (list (string * json)) :=
  merge_results (collect_results completed).

Definition failure_entry (r : string * exec_result) : list json :=
  match r with
  | (ptype, RFailure err) => [JObj [("prompt_type", JStr ptype); ("error", JStr err)]]
  | _ => []
  end.

(* ------------------------------------------------------------------ *)
(** ** Job counters (app/utils/rate_limiter.py) and their use by the handlers *)
Definition MAX_JOBS_PER_API_KEY : Z := 20.
Definition MAX_JOBS_PER_USER : Z := 1.

(** [rate_limit_users] and [rate_limit_api_keys]: [current_jobs] by key. *)
Record db := { rate_limit_users : gmap string Z; rate_limit_api_keys : gmap string Z }.

(** [row[0] if row else 0] *)
Definition current_jobs (t : gmap string Z) (k : string) : Z := default 0 (t !! k).

Definition limit_msg (what : string) (n lim : Z) : string :=
  String.append what (String.append " limit exceeded ("
    (String.append (string_of_Z n) (String.append "/" (String.append (string_of_Z lim) ")")))).

(** A database fault: [Some (i, msg)] when the [i]-th call on the
    connection inside one [with get_db() as conn:] block raises an error
    whose [str] is [msg] (calls numbered from 0 in program order:
    [get_db_connection()], each [conn.execute], and the [conn.commit()] on
    leaving the block).  [get_db] then rolls the transaction back and
    re-raises, so the tables keep the state they had before the block. *)
Definition db_fault := option (nat * string).

(** The [with get_db() as conn:] block as a computation that counts the
    calls on the connection and stops at the faulty one. *)
Definition conn_m (A : Type) := nat -> string + (A * nat).

Definition conn_bind {A B} (m : conn_m A) (k : A -> conn_m B) : conn_m B :=
  fun i => match m i with inl e => inl e | inr (x, j) => k x j end.

(** One call on the connection returning [x]. *)
Definition conn_call (f : db_fault) {A} (x : A) : conn_m A :=
  fun i => match f with
           | Some (j, msg) => if Nat.eqb i j then inl msg else inr (x, S i)
           | None => inr (x, S i)
           end.

(** The body of the [try] in [check_and_increment_rate_limits]; the
    [INSERT OR REPLACE]s take effect with the commit. *)
Definition check_block (f : db_fault) (d : db) (user_id api_key : string) :
    conn_m (db * (bool * option string)) :=
  conn_bind (conn_call f tt) (fun _ =>                                    (* get_db_connection() *)
  conn_bind (conn_call f (current_jobs (rate_limit_users d) user_id)) (fun user_jobs =>
  if MAX_JOBS_PER_USER <=? user_jobs then
    conn_call f (d, (false, Some (limit_msg "user" user_jobs MAX_JOBS_PER_USER)))   (* commit *)
  else
  conn_bind (conn_call f (current_jobs (rate_limit_api_keys d) api_key)) (fun key_jobs =>
  if MAX_JOBS_PER_API_KEY <=? key_jobs then
    conn_call f (d, (false, Some (limit_msg "api_key" key_jobs MAX_JOBS_PER_API_KEY)))   (* commit *)
  else
  conn_bind (conn_call f tt) (fun _ =>                                    (* INSERT users *)
  conn_bind (conn_call f tt) (fun _ =>                                    (* INSERT api keys *)
  conn_call f ({| rate_limit_users := <[user_id := user_jobs + 1]> (rate_limit_users d);
                  rate_limit_api_keys := <[api_key := key_jobs + 1]> (rate_limit_api_keys d) |},
               (true, None))))))).                                        (* commit *)

(** [except Exception as e: return False, f"rate limiter error: {e}"] *)
Definition check_and_increment_rate_limits (f : db_fault) (d : db) (user_id api_key : string) :
    db * (bool * option string) :=
  match check_block f d user_id api_key 0%nat with
  | inl msg => (d, (false, Some (String.append "rate limiter error: " msg)))
  | inr (r, _) => r
  end.

(** [UPDATE ... SET current_jobs = MAX(0, current_jobs - 1) WHERE ...]:
    no row, no change. *)
Definition dec_row (t : gmap string Z) (k : string) : gmap string Z :=
  match t !! k with Some c => <[k := Z.max 0 (c - 1)]> t | None => t end.

Definition decrement_block (f : db_fault) (d : db) (user_id api_key : string) : conn_m db :=
  conn_bind (conn_call f tt) (fun _ =>                                    (* get_db_connection() *)
  conn_bind (conn_call f tt) (fun _ =>                                    (* UPDATE users *)
  conn_bind (conn_call f tt) (fun _ =>                                    (* UPDATE api keys *)
  conn_call f {| rate_limit_users := dec_row (rate_limit_users d) user_id;
                 rate_limit_api_keys := dec_row (rate_limit_api_keys d) api_key |}))).  (* commit *)

(** [except Exception: pass] *)
Definition decrement_rate_limits (f : db_fault) (d : db) (user_id api_key : string) : db :=
  match decrement_block f d user_id api_key 0%nat with
  | inl _ => d
  | inr (d', _) => d'
  end.



(** Python truthiness of the pair [(ok, reason)]: a non-empty tuple is true. *)
Definition tuple_truthy {A B} (p : A * B) : bool := true.

(** [process_classification]: [if not check...(...): return; try: ...
    finally: decrement]. *)
Definition classification_job_counters (f_check f_dec : db_fault) (d : db) (user_id api_key : string) : db :=
  let '(d1, r) := check_and_increment_rate_limits f_check d user_id api_key in
  if negb (tuple_truthy r) then d1 else decrement_rate_limits f_dec d1 user_id api_key.

(** One more than [d] for that user and that key. *)
Definition bumped (d : db) (user_id api_key : string) : db :=
  {| rate_limit_users := <[user_id := current_jobs (rate_limit_users d) user_id + 1]> (rate_limit_users d);
     rate_limit_api_keys := <[api_key := current_jobs (rate_limit_api_keys d) api_key + 1]> (rate_limit_api_keys d) |}.

(** The fault hits one of the first [n] calls of a block. *)
Definition fault_within (f : db_fault) (n : nat) : option string :=
  match f with Some (j, msg) => if (j <? n)%nat then Some msg else None | None => None end.


Definition counters_in_bounds (d : db) : Prop :=
  map_Forall (fun _ c => 0 <= c <= MAX_JOBS_PER_USER) (rate_limit_users d) /\
  map_Forall (fun _ c => 0 <= c <= MAX_JOBS_PER_API_KEY) (rate_limit_api_keys d).

Inductive counter_op := OpCheck (f : db_fault) (u k : string) | OpDecrement (f : db_fault) (u k : string).

Definition apply_counter_op (d : db) (op : counter_op) : db :=
  match op with
  | OpCheck f u k => fst (check_and_increment_rate_limits f d u k)
  | OpDecrement f u k => decrement_rate_limits f d u k
  end.

(* ------------------------------------------------------------------ *)
(** ** Prompts (app/utils/prompt_utils.py, app/core/ai_action_handler.py) *)

(** [s.replace(old, new)] for a non-empty [old]: left to right, the
    inserted text is not scanned again. [skip] counts the characters of a
    match still to be dropped. *)
Fixpoint replace_go (old new : string) (s : string) (skip : nat) : string :=
  match s with
  | EmptyString => EmptyString
  | String c rest =>
      match skip with
      | S k => replace_go old new rest k
      | O =>
          if String.prefix old s then String.append new (replace_go old new rest (String.length old - 1))
          else String c (replace_go old new rest 0)
      end
  end.

Definition py_replace (s old new : string) : string := replace_go old new s 0.

Definition PDF_PLACEHOLDER : string := "{{PDF_TEXT}}".
Definition RESUME_PLACEHOLDER : string := "{{USER_RESUME_JSON}}".

Definition PROMPT_TYPE_TO_FILE : list (string * string) :=
  [("contact", "extract_prompt_contact_about.txt");
   ("about", "extract_prompt_contact_about.txt");
   ("education", "extract_prompt_education_certifications.txt");
   ("certifications", "extract_prompt_education_certifications.txt");
   ("experience", "extract_prompt_experience.txt");
   ("projects", "extract_prompt_projects.txt");
   ("skills", "extract_prompt_skills.txt")].

Inductive prompt_error :=
| ValueError_unknown_prompt_type (prompt_type : string)
| FileNotFoundError_prompt (filename : string)
| ValueError_unsupported_action
| ValueError_no_focused_prompt.

(** [prompt_files f] is the content of [PROMPTS_DIR / f], if that file exists. *)
Definition load_prompt_template (prompt_files : string -> option string) (prompt_type : string) :
    prompt_error + string :=
  match assoc prompt_type PROMPT_TYPE_TO_FILE with
  | None => inl (ValueError_unknown_prompt_type prompt_type)
  | Some filename =>
      match prompt_files filename with
      | None => inl (FileNotFoundError_prompt filename)
      | Some txt => inr txt
      end
  end.

(** A prompt item [{"prompt_type": ..., "prompt": ...}]. *)
Record prompt_item := { item_prompt_type : string; item_prompt : option string }.

(** [if prompt_item.get("prompt"):]: [None] and [""] are false. *)
Definition truthy_str (s : option string) : option string :=
  match s with Some t => if String.eqb t "" then None else Some t | None => None end.

Definition build_prompt (prompt_files : string -> option string) (pdf_text : string)
    (item : prompt_item) : prompt_error + string :=
  match truthy_str (item_prompt item) with
  | Some template => inr (py_replace template PDF_PLACEHOLDER pdf_text)
  | None =>
      match load_prompt_template prompt_files (item_prompt_type item) with
      | inl e => inl e
      | inr template => inr (py_replace template PDF_PLACEHOLDER pdf_text)
      end
  end.

Definition _ALLOWED_BY_TAB : list (string * list string) :=
  [("Contact", ["AI Suggestions"; "Validate"]);
   ("Soft Skills", ["AI Suggestions"; "Validate"; "Enhance"]);
   ("Tech Skills", ["AI Suggestions"; "Validate"]);
   ("About", ["AI Suggestions"; "Validate"; "Enhance"; "Shorten"]);
   ("Experience", ["AI Suggestions"; "Validate"; "Enhance"]);
   ("Projects", ["AI Suggestions"; "Validate"; "Enhance"]);
   ("Education", ["AI Suggestions"; "Validate"]);
   ("Certifications", ["AI Suggestions"; "Validate"]);
   ("Availability", [])].

Definition _FOCUSED_PROMPTS : list ((string * string) * string) :=
  [(("Contact", "AI Suggestions"), "Using {{PDF_TEXT}} or {{USER_RESUME_JSON}}, suggest missing/ambiguous Contact fixes as strict JSON.");
   (("Contact", "Validate"), "Validate Contact fields found in {{PDF_TEXT}} or {{USER_RESUME_JSON}}; output strict JSON report of issues only.");
   (("Soft Skills", "AI Suggestions"), "From {{PDF_TEXT}} or {{USER_RESUME_JSON}}, suggest relevant soft skills; avoid duplicates; strict JSON.");
   (("Soft Skills", "Validate"), "Validate listed soft skills against evidence in {{PDF_TEXT}} or {{USER_RESUME_JSON}}; strict JSON.");
   (("Soft Skills", "Enhance"), "Enhance soft skills phrasing for clarity and impact using {{PDF_TEXT}} or {{USER_RESUME_JSON}}; strict JSON.");
   (("Tech Skills", "AI Suggestions"), "Suggest technical skills inferred from {{PDF_TEXT}} or {{USER_RESUME_JSON}}; group by area; strict JSON.");
   (("Tech Skills", "Validate"), "Validate technical skills against evidence in {{PDF_TEXT}} or {{USER_RESUME_JSON}}; strict JSON.");
   (("About", "AI Suggestions"), "Draft a concise About section from {{PDF_TEXT}} or {{USER_RESUME_JSON}}; strict JSON.");
   (("About", "Validate"), "Validate About section consistency with {{PDF_TEXT}} or {{USER_RESUME_JSON}}; strict JSON.");
   (("About", "Enhance"), "Enhance About section for clarity and impact using {{PDF_TEXT}} or {{USER_RESUME_JSON}}; strict JSON.");
   (("About", "Shorten"), "Shorten About section to a crisp summary using {{PDF_TEXT}} or {{USER_RESUME_JSON}}; strict JSON.");
   (("Experience", "AI Suggestions"), "From {{PDF_TEXT}} or {{USER_RESUME_JSON}}, infer missing Experience bullets; strict JSON.");
   (("Experience", "Validate"), "Validate Experience items vs {{PDF_TEXT}} or {{USER_RESUME_JSON}}; strict JSON.");
   (("Experience", "Enhance"), "Enhance Experience bullets to be outcome-focused using {{PDF_TEXT}} or {{USER_RESUME_JSON}}; strict JSON.");
   (("Projects", "AI Suggestions"), "Suggest relevant projects from {{PDF_TEXT}} or {{USER_RESUME_JSON}}; strict JSON.");
   (("Projects", "Validate"), "Validate projects against {{PDF_TEXT}} or {{USER_RESUME_JSON}}; strict JSON.");
   (("Projects", "Enhance"), "Enhance project descriptions using {{PDF_TEXT}} or {{USER_RESUME_JSON}}; strict JSON.");
   (("Education", "AI Suggestions"), "Suggest education items from {{PDF_TEXT}} or {{USER_RESUME_JSON}}; strict JSON.");
   (("Education", "Validate"), "Validate education items vs {{PDF_TEXT}} or {{USER_RESUME_JSON}}; strict JSON.");
   (("Certifications", "AI Suggestions"), "Suggest certifications from {{PDF_TEXT}} or {{USER_RESUME_JSON}}; strict JSON.");
   (("Certifications", "Validate"), "Validate certifications vs {{PDF_TEXT}} or {{USER_RESUME_JSON}}; strict JSON.")].

(** [_ALLOWED_BY_TAB.get(tab, set())] then [action in allowed]. *)
Definition _is_allowed_default (tab action : string) : bool :=
  existsb (String.eqb action) (default [] (assoc tab _ALLOWED_BY_TAB)).

Fixpoint lookup_pair (k : string * string) (l : list ((string * string) * string)) : option string :=
  match l with
  | [] => None
  | (k', v) :: rest => if String.eqb k.1 k'.1 && String.eqb k.2 k'.2 then Some v else lookup_pair k rest
  end.

Definition _focused_template_for (tab action : string) : prompt_error + string :=
  match lookup_pair (tab, action) _FOCUSED_PROMPTS with
  | None => inl ValueError_no_focused_prompt
  | Some t => inr t
  end.

(** The prompt [process_action] sends; [pdf_text] is [""] when no file was
    uploaded, [resume_json_text] is [request_data.resume_json or ""]. *)
Definition action_prompt (prompt_files : string -> option string) (prompt : option string)
    (tab action_type pdf_text resume_json_text : string) : prompt_error + string :=
  match truthy_str prompt with
  | Some base_prompt =>
      let filled := py_replace base_prompt PDF_PLACEHOLDER pdf_text in
      inr (py_replace filled RESUME_PLACEHOLDER resume_json_text)
  | None =>
      if negb (_is_allowed_default tab action_type) then inl ValueError_unsupported_action
      else
        let document_text := if String.eqb pdf_text "" then resume_json_text else pdf_text in
        match _focused_template_for tab action_type with
        | inl e => inl e
        | inr focused_template =>
            match build_prompt prompt_files document_text
                    {| item_prompt_type := tab; item_prompt := Some focused_template |} with
            | inl e => inl e
            | inr prompt_text => inr (py_replace prompt_text RESUME_PLACEHOLDER resume_json_text)
            end
        end
  end.

Definition occurs (old s : string) : Prop := ∃ pre post, s = String.append pre (String.append old post).

Fixpoint occursb (old s : string) : bool :=
  String.prefix old s || match s with String _ rest => occursb old rest | EmptyString => false end.

Definition allowed_pairs : list (string * string) :=
  concat (map (fun '(t, acts) => map (fun a => (t, a)) acts) _ALLOWED_BY_TAB).

(* ------------------------------------------------------------------ *)
(** ** Concrete inputs for the service code *)

Definition text_note : list Ascii.ascii := String.list_ascii_of_string "note: {a} end".
Definition slice_a : list Ascii.ascii := String.list_ascii_of_string "{a}".

Definition results_example : list (string * exec_result) :=
  [("contact", RSuccess (JObj [("contact", JStr "c"); ("x", JNum 1)]));
   ("skills", RFailure "boom");
   ("experience", RSuccess (JObj [("x", JNum 2); ("experience", JArr [])]))].

Definition merged_example : list (string * json) := default [] (merge_results results_example).

Definition db0 : db := {| rate_limit_users := ∅; rate_limit_api_keys := ∅ |}.
Definition db1 : db := fst (check_and_increment_rate_limits None db0 "user-1" "sk-a").

Definition no_prompt_files : string -> option string := fun _ => None.

(* ------------------------------------------------------------------ *)
(** ** Semaphore accounting *)

Lemma holders_insert k (ts : list pc) i p p' :
  ts !! i = Some p ->
  (holders k (<[i := p']> ts) + (if holds k p then 1 else 0) =
   holders k ts + (if holds k p' then 1 else 0))%nat.
Proof.
  revert i. induction ts as [|q ts IH]; intros [|i] Hi; simpl in *; try discriminate.
  - injection Hi as ->. lia.
  - specialize (IH i Hi). lia.
Qed.

Lemma holders_app k (ts ts' : list pc) : holders k (ts ++ ts') = (holders k ts + holders k ts')%nat.
Proof. induction ts as [|q ts IH]; simpl; lia. Qed.

Lemma holds_key k p : holds k p = true -> pc_key p = Some k.
Proof.
  destruct p as [k' ? | k' ? | k' ? [] | k' ? [] | k' [] ? | ?]; simpl; try discriminate;
    intros H; apply String.eqb_eq in H; congruence.
Qed.

Lemma holds_other k p : pc_key p <> Some k -> holds k p = false.
Proof. intros H. destruct (holds k p) eqn:E; [|done]. apply holds_key in E. congruence. Qed.

Lemma holds_self k rq h : holds k (Limiting k rq h) = h.
Proof. destruct h; simpl; [apply String.eqb_refl|done]. Qed.

Lemma holds_self_call k rq h : holds k (Calling k rq h) = h.
Proof. destruct h; simpl; [apply String.eqb_refl|done]. Qed.

Lemma holds_self_rel k o h : holds k (Releasing k h o) = h.
Proof. destruct h; simpl; [apply String.eqb_refl|done]. Qed.

Lemma step_key_same cfg g p resp g' p' :
  thread_step cfg g p resp = Some (g', p') ->
  pc_key p' = pc_key p \/ ∃ o, p' = Done o.
Proof.
  destruct p; simpl.
  - destruct (_get_sem_for _ _ _) as [[]?]; intros [= <- <-]; auto.
  - destruct (sems g !! key) as [v|]; [destruct (0 <? v)|]; intros; try discriminate.
    injection H as <- <-; auto.
  - destruct (try_acquire _ _ _); [intros [= <- <-]; auto|].
    destruct (OPENAI_RPM_FAIL_FAST cfg); [intros [= <- <-]; auto|discriminate].
  - intros [= <- <-]; auto.
  - destruct held; [destruct (sems g !! key)|]; intros [= <- <-]; eauto.
  - discriminate.
Qed.

(** A step of a thread of key [A] leaves every other key's semaphore and
    bucket as they were. *)
Lemma thread_step_frame cfg g p resp g' p' A B :
  thread_step cfg g p resp = Some (g', p') ->
  pc_key p = Some A -> A <> B ->
  sems g' !! B = sems g !! B /\ buckets g' !! B = buckets g !! B.
Proof.
  intros Hs Hk Hne. destruct p; simpl in Hk; try discriminate; injection Hk as <-; simpl in Hs.
  - unfold _get_sem_for in Hs.
    destruct (OPENAI_MAX_CONCURRENCY_PER_KEY cfg <=? 0); [injection Hs as <- <-; done|].
    destruct (sems g !! key); injection Hs as <- <-; simpl; [done|].
    split; [by rewrite lookup_insert_ne|done].
  - destruct (sems g !! key) as [v|]; [destruct (0 <? v)|]; try discriminate.
    injection Hs as <- <-. simpl. split; [by rewrite lookup_insert_ne|done].
  - destruct (try_acquire _ _ _).
    + injection Hs as <- <-. simpl. split; [done|by rewrite lookup_insert_ne].
    + destruct (OPENAI_RPM_FAIL_FAST cfg); [injection Hs as <- <-; done|discriminate].
  - injection Hs as <- <-. done.
  - destruct held; [destruct (sems g !! key)|]; injection Hs as <- <-; simpl; try done.
    split; [by rewrite lookup_insert_ne|done].
Qed.

Ltac simpl_holds H :=
  rewrite ?holds_self, ?holds_self_call, ?holds_self_rel in H; simpl in H;
  rewrite ?String.eqb_refl in H.

Lemma thread_step_sem_inv cfg st i p resp g' p' :
  sem_inv cfg st -> threads st !! i = Some p ->
  thread_step cfg (glob st) p resp = Some (g', p') ->
  sem_inv cfg {| glob := g'; threads := <[i := p']> (threads st) |}.
Proof.
  destruct st as [g ts]; unfold sem_inv; simpl. intros Hinv Hi Hs k'.
  pose proof (holders_insert k' ts i p p' Hi) as Hh. simpl.
  destruct (pc_key p) as [k|] eqn:Hk;
    [|destruct p; simpl in Hk; try discriminate; simpl in Hs; discriminate].
  destruct (decide (k = k')) as [<-|Hne].
  2: { destruct (thread_step_frame _ _ _ _ _ _ k k' Hs Hk Hne) as [-> _].
       rewrite (holds_other k' p) in Hh by congruence.
       rewrite (holds_other k' p') in Hh.
       2: { destruct (step_key_same _ _ _ _ _ _ Hs) as [->|[o ->]]; simpl; congruence. }
       specialize (Hinv k'). destruct (sems g !! k'); lia. }
  specialize (Hinv k).
  destruct p; simpl in Hk; try discriminate; injection Hk as Hk; subst; simpl in Hs.
  - (* Start *)
    unfold _get_sem_for in Hs.
    destruct (OPENAI_MAX_CONCURRENCY_PER_KEY cfg <=? 0) eqn:Hc.
    { injection Hs as <- <-. simpl in *. destruct (sems g !! k); lia. }
    destruct (sems g !! k) eqn:Hv; injection Hs as <- <-; simpl in *;
      rewrite ?Hv, ?lookup_insert_eq; lia.
  - (* Acquiring *)
    destruct (sems g !! k) as [v|] eqn:Hv; [destruct (0 <? v) eqn:Hpos|]; try discriminate.
    injection Hs as <- <-. simpl_holds Hh. simpl in *. rewrite lookup_insert_eq. apply Z.ltb_lt in Hpos. lia.
  - (* Limiting *)
    destruct (try_acquire _ _ _).
    + injection Hs as <- <-. simpl_holds Hh. simpl in *.
      destruct (sems g !! k); lia.
    + destruct (OPENAI_RPM_FAIL_FAST cfg); [|discriminate].
      injection Hs as <- <-. simpl_holds Hh.
      destruct (sems g !! k); lia.
  - (* Calling *)
    injection Hs as <- <-. simpl_holds Hh. simpl in *.
    destruct (sems g !! k); lia.
  - (* Releasing *)
    simpl_holds Hh.
    destruct held.
    + destruct (sems g !! k) as [v|] eqn:Hv; injection Hs as <- <-; simpl in *.
      * rewrite lookup_insert_eq. lia.
      * rewrite Hv. lia.
    + injection Hs as <- <-. simpl in *. destruct (sems g !! k); lia.
Qed.

Lemma step_sem_inv cfg st st' : sem_inv cfg st -> step cfg st st' -> sem_inv cfg st'.
Proof.
  intros Hinv Hs. destruct Hs as [st i p resp g' p' Hi Hts|st dt Hdt|st k0 rq].
  - eapply thread_step_sem_inv; eauto.
  - intros k. apply (Hinv k).
  - intros k. specialize (Hinv k). simpl. rewrite holders_app. simpl.
    destruct (sems (glob st) !! k); lia.
Qed.

Lemma reachable_sem_inv cfg st : reachable cfg st -> sem_inv cfg st.
Proof.
  unfold reachable. intros H.
  assert (Hi : sem_inv cfg init_state) by (intros k; done).
  revert Hi. induction H as [|x y z Hxy Hyz IH]; intros Hx; [done|].
  apply IH. eapply step_sem_inv; eauto.
Qed.

Lemma thread_step_sems_persist cfg g p resp g' p' k :
  thread_step cfg g p resp = Some (g', p') ->
  is_Some (sems g !! k) -> is_Some (sems g' !! k).
Proof.
  intros Hs Hk. destruct p; simpl in Hs.
  - unfold _get_sem_for in Hs. destruct (OPENAI_MAX_CONCURRENCY_PER_KEY cfg <=? 0).
    + by injection Hs as <- <-.
    + destruct (sems g !! key) eqn:E; injection Hs as <- <-; simpl; [done|].
      rewrite lookup_insert. case_decide; [done|exact Hk].
  - destruct (sems g !! key) as [v|]; [destruct (0 <? v)|]; try discriminate.
    injection Hs as <- <-. simpl. rewrite lookup_insert. case_decide; [done|exact Hk].
  - destruct (try_acquire _ _ _); [by injection Hs as <- <-|].
    destruct (OPENAI_RPM_FAIL_FAST cfg); [by injection Hs as <- <-|discriminate].
  - by injection Hs as <- <-.
  - destruct held; [destruct (sems g !! key)|]; injection Hs as <- <-; simpl; try done.
    rewrite lookup_insert. case_decide; [done|exact Hk].
  - discriminate.
Qed.

Lemma steps_sems_persist cfg st st' k :
  rtc (step cfg) st st' -> is_Some (sems (glob st) !! k) -> is_Some (sems (glob st') !! k).
Proof.
  induction 1 as [|x y z Hxy Hyz IH]; intros Hk; [done|]. apply IH.
  destruct Hxy; simpl; try done. eapply thread_step_sems_persist; eauto.
Qed.

Lemma quiescent_holders st k : quiescent st -> holders k (threads st) = 0%nat.
Proof.
  unfold quiescent. destruct st as [g ts]. simpl.
  induction 1 as [|p ts [o ->] _ IH]; simpl; done.
Qed.

(* ------------------------------------------------------------------ *)
(** ** Disabled gate and BLOCK mode *)

Lemma step_gate_off_inv cfg st st' :
  OPENAI_MAX_CONCURRENCY_PER_KEY cfg <= 0 ->
  gate_off_inv st -> step cfg st st' -> gate_off_inv st'.
Proof.
  intros Hc [Hs0 Hf] Hs. destruct Hs as [st i p resp g' p' Hi Hts|st dt Hdt|st k0 rq]; simpl.
  - pose proof (Forall_lookup_1 _ _ _ _ Hf Hi) as Hp.
    destruct p; simpl in Hts, Hp.
    + unfold _get_sem_for in Hts. assert (E : (OPENAI_MAX_CONCURRENCY_PER_KEY cfg <=? 0) = true) by lia.
      rewrite E in Hts. injection Hts as <- <-. split; [done|]. by apply Forall_insert.
    + discriminate.
    + destruct held; [discriminate|].
      destruct (try_acquire _ _ _); [|destruct (OPENAI_RPM_FAIL_FAST cfg); [|discriminate]];
        injection Hts as <- <-; (split; [done|]); by apply Forall_insert.
    + destruct held; [discriminate|]. injection Hts as <- <-. split; [done|]. by apply Forall_insert.
    + destruct held; [discriminate|]. injection Hts as <- <-. split; [done|]. by apply Forall_insert.
    + discriminate.
  - done.
  - split; [done|]. apply Forall_app_2; [done|]. by constructor.
Qed.

Lemma reachable_gate_off cfg st :
  OPENAI_MAX_CONCURRENCY_PER_KEY cfg <= 0 -> reachable cfg st -> gate_off_inv st.
Proof.
  intros Hc H. assert (Hi : gate_off_inv init_state) by (split; [done|constructor]).
  revert Hi. induction H as [|x y z Hxy Hyz IH]; intros Hx; [done|].
  apply IH. eapply step_gate_off_inv; eauto.
Qed.

Lemma call_openai_api_exc cfg k rq resp e :
  call_openai_api k rq resp = Exc e ->
  except_bucket_full cfg e = e /\ is_rate_limit_exc e = false.
Proof.
  unfold call_openai_api. destruct resp as [m|st txt body].
  - intros [= <-]. done.
  - destruct (negb (st =? 200)); [intros [= <-]; done|].
    destruct body; [discriminate|]. intros [= <-]. done.
Qed.

Lemma step_no_rate_limit cfg st st' :
  OPENAI_RPM_FAIL_FAST cfg = false ->
  no_rate_limit st -> step cfg st st' -> no_rate_limit st'.
Proof.
  intros Hff Hf Hs. unfold no_rate_limit in *.
  destruct Hs as [st i p resp g' p' Hi Hts|st dt Hdt|st k0 rq]; simpl in *.
  - pose proof (Forall_lookup_1 _ _ _ _ Hf Hi) as Hp.
    apply Forall_insert; [done|].
    destruct p; simpl in Hts, Hp.
    + destruct (_get_sem_for _ _ _) as [[]?]; injection Hts as <- <-; done.
    + destruct (sems (glob st) !! key) as [v|]; [destruct (0 <? v)|]; try discriminate.
      injection Hts as <- <-. done.
    + rewrite Hff in Hts. destruct (try_acquire _ _ _); [|discriminate].
      injection Hts as <- <-. done.
    + injection Hts as <- <-. simpl.
      destruct (call_openai_api key rq resp) eqn:E; [done|].
      destruct (call_openai_api_exc cfg _ _ _ _ E) as [-> ?]. done.
    + destruct held; [destruct (sems (glob st) !! key)|]; injection Hts as <- <-; done.
    + discriminate.
  - done.
  - apply Forall_app_2; [done|]. by constructor.
Qed.

Lemma reachable_no_rate_limit cfg st :
  OPENAI_RPM_FAIL_FAST cfg = false -> reachable cfg st -> no_rate_limit st.
Proof.
  intros Hff H. assert (Hi : no_rate_limit init_state) by constructor.
  revert Hi. induction H as [|x y z Hxy Hyz IH]; intros Hx; [done|].
  apply IH. eapply step_no_rate_limit; eauto.
Qed.

Lemma inspect_from_none items time vol idx :
  Forall (fun t => (t <= time)%Q) items -> inspect_from items time vol idx = (0%nat, 0%Q).
Proof.
  intros H. revert idx. induction H as [|t items Ht _ IH]; intros idx; [done|]. simpl.
  assert (Hle : Qle_bool t time = true) by (apply Qle_bool_iff; exact Ht).
  rewrite Hle. apply IH.
Qed.

(** A bucket whose items are all at or before [q] admits at [q + 60]. *)
Lemma try_acquire_after_window rpm (q : Q) bucket :
  Forall (fun t => (t <= q)%Q) bucket -> 0 < rpm -> ∃ b', try_acquire rpm (q + 60)%Q bucket = inl b'.
Proof.
  intros Hall Hrpm. unfold try_acquire.
  destruct (Z.of_nat (length bucket) <? rpm); [eauto|].
  unfold inspect_expired_items, window.
  assert (Hall' : Forall (fun t => (t <= q + 60 - 60)%Q) bucket).
  { apply (Forall_impl _ _ _ Hall). intros t Ht. lra. }
  rewrite (inspect_from_none _ _ _ _ Hall').
  replace (rpm <=? Z.of_nat 0) with false by (symmetry; apply Z.leb_gt; lia). eauto.
Qed.

(* ------------------------------------------------------------------ *)
(** ** One call run alone *)

(** What the limiter raises: a BucketFullException whose [meta_info] is
    pyrate-limiter's. *)
Lemma try_acquire_rejects rpm t bucket e :
  try_acquire rpm t bucket = inr e -> ∃ r, e = BucketFullException (Some (bucket_full_meta r)).
Proof.
  unfold try_acquire. destruct (_ <? _); [discriminate|].
  destruct (inspect_expired_items _ _) as [c r]. destruct (_ <=? _); [|discriminate].
  intros [= <-]. eauto.
Qed.

Lemma try_acquire_inr rpm t log e :
  try_acquire rpm t log = inr e -> ∃ meta, e = BucketFullException meta.
Proof. intros H. destruct (try_acquire_rejects _ _ _ _ H) as [r ->]. eauto. Qed.

Lemma run_done f cfg g o resp : run_thread f cfg g (Done o) resp = Some (g, o).
Proof. by destruct f. Qed.

Lemma run_releasing f cfg g k h o resp g' o' :
  run_thread f cfg g (Releasing k h o) resp = Some (g', o') -> o' = o /\ calls g' = calls g.
Proof.
  destruct f as [|f]; [discriminate|]. simpl.
  destruct h; [destruct (sems g !! k)|]; rewrite run_done; intros [= <- <-]; done.
Qed.

Lemma run_calling f cfg g k rq h resp g' o' :
  run_thread f cfg g (Calling k rq h) resp = Some (g', o') ->
  o' = call_openai_api k rq resp /\ calls g' = calls g ++ [(k, rq)].
Proof.
  destruct f as [|f]; [discriminate|]. simpl. intros H.
  apply run_releasing in H as [-> Hc]. rewrite Hc. split; [|done].
  destruct (call_openai_api k rq resp) eqn:E; [done|].
  by destruct (call_openai_api_exc cfg _ _ _ _ E) as [-> _].
Qed.

Lemma run_limiting f cfg g k rq h resp g' o' :
  run_thread f cfg g (Limiting k rq h) resp = Some (g', o') ->
  rejected_or_called k rq resp g g' o'.
Proof.
  destruct f as [|f]; [discriminate|]. simpl. intros H.
  destruct (try_acquire _ _ _) as [log'|e] eqn:E.
  - apply run_calling in H as [-> Hc]. left. rewrite Hc. done.
  - destruct (OPENAI_RPM_FAIL_FAST cfg); [|discriminate].
    apply run_releasing in H as [-> Hc]. right. split; [done|].
    destruct (try_acquire_inr _ _ _ _ E) as [meta ->]. simpl. eauto.
Qed.

Lemma run_acquiring f cfg g k rq resp g' o' :
  run_thread f cfg g (Acquiring k rq) resp = Some (g', o') ->
  rejected_or_called k rq resp g g' o'.
Proof.
  destruct f as [|f]; [discriminate|]. simpl. intros H.
  destruct (sems g !! k) as [v|]; [destruct (0 <? v)|]; try discriminate.
  by apply run_limiting in H.
Qed.

Lemma run_thread_S f cfg g p resp :
  (∀ o, p <> Done o) ->
  run_thread (S f) cfg g p resp =
  match thread_step cfg g p resp with
  | Some (g', p') => run_thread f cfg g' p' resp
  | None => None
  end.
Proof. intros Hp. destruct p; try reflexivity. exfalso. by eapply Hp. Qed.

Lemma gateway_paths cfg g k rq resp g' o :
  call_openai_rate_limited cfg g k rq resp = Some (g', o) ->
  rejected_or_called k rq resp g g' o.
Proof.
  unfold call_openai_rate_limited. rewrite run_thread_S by discriminate.
  unfold thread_step. destruct (_get_sem_for cfg k (sems g)) as [[v|] s'];
    cbv beta iota zeta; intros H; [apply run_acquiring in H|apply run_limiting in H]; exact H.
Qed.

Lemma get_sem_lookup cfg k s v s' :
  _get_sem_for cfg k s = (Some v, s') -> s' !! k = Some v.
Proof.
  unfold _get_sem_for. destruct (_ <=? 0); [discriminate|].
  destruct (s !! k) eqn:E; intros [= <- <-]; [done|]. apply lookup_insert_eq.
Qed.

Lemma get_sem_none cfg k s s' :
  _get_sem_for cfg k s = (None, s') -> s' = s.
Proof.
  unfold _get_sem_for. destruct (_ <=? 0); [by intros [= <-]|].
  destruct (s !! k); discriminate.
Qed.

Lemma gateway_fail_fast_path cfg g k rq resp e :
  OPENAI_RPM_FAIL_FAST cfg = true ->
  try_acquire (OPENAI_RPM_PER_KEY cfg) (now g) (default [] (buckets g !! k)) = inr e ->
  (∀ v, fst (_get_sem_for cfg k (sems g)) = Some v -> 0 < v) ->
  call_openai_rate_limited cfg g k rq resp =
    Some (set_sems g (snd (_get_sem_for cfg k (sems g))), Exc (except_bucket_full cfg e)).
Proof.
  intros Hff Hfull Hv.
  unfold call_openai_rate_limited. rewrite run_thread_S by discriminate.
  unfold thread_step at 1. destruct (_get_sem_for cfg k (sems g)) as [[v|] s'] eqn:Eg;
    cbv beta iota zeta; simpl fst in Hv; simpl snd.
  - rewrite run_thread_S by discriminate. cbn [thread_step sems set_sems].
    rewrite (get_sem_lookup _ _ _ _ _ Eg).
    assert (Hpos : (0 <? v) = true) by (apply Z.ltb_lt; by apply Hv). rewrite Hpos.
    cbv beta iota.
    rewrite run_thread_S by discriminate. cbn [thread_step buckets now set_sems].
    rewrite Hfull. rewrite Hff. cbv beta iota.
    rewrite run_thread_S by discriminate. cbn [thread_step sems set_sems].
    rewrite lookup_insert_eq. cbv beta iota. rewrite run_done.
    rewrite insert_insert_eq. replace (v - 1 + 1) with v by lia.
    rewrite (insert_id s' k v) by (eapply get_sem_lookup; eauto).
    destruct g; reflexivity.
  - apply get_sem_none in Eg as ->.
    rewrite run_thread_S by discriminate. cbn [thread_step buckets now set_sems].
    rewrite Hfull. rewrite Hff. cbv beta iota.
    rewrite run_thread_S by discriminate. cbn [thread_step]. rewrite run_done.
    destruct g; reflexivity.
Qed.

Lemma run_sched_rtc cfg st acts st' :
  run_sched cfg st acts = Some st' -> rtc (step cfg) st st'.
Proof.
  revert st. induction acts as [|a acts IH]; intros st H; simpl in H.
  - injection H as <-. apply rtc_refl.
  - destruct a as [k rq|i resp|dt].
    + eapply rtc_l; [apply step_spawn|]. by apply IH.
    + destruct (threads st !! i) as [p|] eqn:Hi; [|discriminate].
      destruct (thread_step cfg (glob st) p resp) as [[g' p']|] eqn:Hs; [|discriminate].
      eapply rtc_l; [eapply step_thread; eauto|]. by apply IH.
    + destruct (Qle_bool dt 0) eqn:Hd; [discriminate|].
      eapply rtc_l; [apply step_tick|by apply IH].
      apply Qnot_le_lt. intros Hc. apply Qle_bool_iff in Hc. congruence.
Qed.

(** *** Text extraction *)

Lemma first_block_none cs : first_block cs = None <-> ∀ c, c ∈ cs -> block_text c = None.
Proof.
  induction cs as [|c cs IH]; simpl.
  - split; [intros _ c Hc; by apply elem_of_nil in Hc|done].
  - destruct (block_text c) eqn:E; split.
    + discriminate.
    + intros H. rewrite H in E; [discriminate|constructor].
    + intros H c' Hc'. apply elem_of_cons in Hc' as [->|Hc']; [done|]. by apply IH.
    + intros H. apply IH. intros c' Hc'. apply H. by constructor.
Qed.

Lemma first_block_some cs t : first_block cs = Some t -> ∃ c, c ∈ cs /\ block_text c = Some t.
Proof.
  induction cs as [|c cs IH]; simpl; [discriminate|].
  destruct (block_text c) eqn:E.
  - intros [= <-]. exists c. split; [constructor|done].
  - intros H. destruct (IH H) as (c' & ? & ?). exists c'. split; [by constructor|done].
Qed.

Lemma item_text_obj it :
  is_obj it ->
  (item_text it = inr None <-> item_no_shape it) /\
  (∀ t, item_text it = inr (Some t) -> item_has_shape it t).
Proof.
  destruct it as [| | | | |d]; simpl; try done. intros _.
  unfold item_no_shape, item_has_shape, item_contents, item_own_text.
  destruct (assoc "content" d) as [[| | | |cs|]|] eqn:Ec;
    try (split; [split; [intros [= Ht]; split; [intros c Hc; by apply elem_of_nil in Hc|done]
                        |intros [_ Ht]; by rewrite Ht]
               |intros t [= Ht]; by right]).
  destruct (first_block cs) as [t|] eqn:Eb.
  - split.
    + split; [discriminate|]. intros [Hn _].
      destruct (first_block_some _ _ Eb) as (c & Hc & Hct). rewrite (Hn c Hc) in Hct. discriminate.
    + intros t' [= <-]. left. by apply first_block_some.
  - split.
    + split.
      * intros [= Ht]. split; [by apply first_block_none|done].
      * intros [_ Ht]. by rewrite Ht.
    + intros t' [= Ht]. by right.
Qed.

Lemma scan_items_objs items :
  Forall is_obj items ->
  (scan_items items = inl KeyError_no_text <-> Forall item_no_shape items) /\
  (∀ t, scan_items items = inr t -> ∃ it, it ∈ items /\ item_has_shape it t) /\
  (∀ e, scan_items items = inl e -> e = KeyError_no_text).
Proof.
  induction 1 as [|it items Hit Hits IH]; simpl.
  - split; [split; [constructor|done]|]. split; [discriminate|]. by intros e [= <-].
  - destruct (item_text_obj it Hit) as [Hnone Hsome].
    destruct (item_text it) as [e|[t|]] eqn:E.
    + exfalso. destruct it; try done. simpl in E. repeat case_match; discriminate.
    + split; [split; [discriminate|]|split].
      * intros Hf. inversion Hf as [|? ? Hn _]; subst. apply Hnone in Hn. discriminate.
      * intros t' [= <-]. exists it. split; [constructor|by apply Hsome].
      * discriminate.
    + destruct IH as (IH1 & IH2 & IH3). split; [|split].
      * rewrite IH1. split; [intros H; constructor; [by apply Hnone|done]|by inversion 1].
      * intros t Ht. destruct (IH2 t Ht) as (it' & ? & ?). exists it'. split; [by constructor|done].
      * exact IH3.
Qed.

Lemma first_block_first cs t :
  first_block cs = Some t <->
  ∃ pre c post, cs = pre ++ c :: post /\ Forall (fun c => block_text c = None) pre /\ block_text c = Some t.
Proof.
  induction cs as [|c cs IH]; simpl.
  - split; [discriminate|]. intros (pre & c & post & H & _). destruct pre; discriminate.
  - destruct (block_text c) eqn:E.
    + split.
      * intros [= Ht]. subst. exists [], c, cs. split; [reflexivity|]. split; [constructor|exact E].
      * intros (pre & c' & post & Heq & Hpre & Hc').
        destruct pre as [|c0 pre]; simpl in Heq; injection Heq as H1 H2; subst.
        -- congruence.
        -- inversion Hpre as [|? ? Hc0 _]; congruence.
    + rewrite IH. split.
      * intros (pre & c' & post & -> & Hpre & Hc'). exists (c :: pre), c', post.
        split; [reflexivity|]. split; [constructor; assumption|exact Hc'].
      * intros (pre & c' & post & Heq & Hpre & Hc').
        destruct pre as [|c0 pre]; simpl in Heq; injection Heq as H1 H2; subst.
        -- congruence.
        -- inversion Hpre as [|? ? _ Hpre']; subst. exists pre, c', post. auto.
Qed.

Lemma item_text_obj_eq it :
  is_obj it ->
  item_text it = inr (match first_block (item_contents it) with
                      | Some t => Some t | None => item_own_text it end).
Proof.
  destruct it as [| | | | |d]; try done. intros _. simpl.
  unfold item_contents, item_own_text.
  destruct (assoc "content" d) as [[| | | |cs|]|]; try reflexivity. by destruct (first_block cs).
Qed.

Lemma item_text_first it t : is_obj it -> (item_text it = inr (Some t) <-> item_first_shape it t).
Proof.
  intros H. rewrite (item_text_obj_eq it H). unfold item_first_shape.
  pose proof (first_block_first (item_contents it) t) as Hf.
  pose proof (first_block_none (item_contents it)) as Hn.
  destruct (first_block (item_contents it)) as [t'|]; split.
  - intros [= <-]. left. apply Hf. reflexivity.
  - intros [H1|[H1 _]]; [apply Hf in H1; congruence|].
    apply Hn in H1. discriminate.
  - intros [= H1]. right. split; [apply Hn; reflexivity|exact H1].
  - intros [H1|[_ H1]]; [apply Hf in H1; discriminate|congruence].
Qed.

Lemma scan_items_first items t :
  Forall is_obj items ->
  (scan_items items = inr t <->
   ∃ pre it post, items = pre ++ it :: post /\ Forall item_no_shape pre /\ item_first_shape it t).
Proof.
  induction 1 as [|it items Hit Hits IH]; simpl.
  - split; [discriminate|]. intros (pre & it & post & H & _). destruct pre; discriminate.
  - destruct (item_text_obj it Hit) as [Hnone _]. pose proof (item_text_first it t Hit) as Hf.
    destruct (item_text it) as [e|[t'|]] eqn:E.
    + exfalso. rewrite (item_text_obj_eq it Hit) in E. discriminate.
    + split.
      * intros [= Ht]. subst. exists [], it, items. split; [reflexivity|].
        split; [constructor|]. apply Hf. reflexivity.
      * intros (pre & it' & post & Heq & Hpre & Hit').
        destruct pre as [|i0 pre]; simpl in Heq; injection Heq as H1 H2; subst.
        -- apply Hf in Hit'. congruence.
        -- inversion Hpre as [|? ? Hi0 _]; subst. apply Hnone in Hi0. discriminate.
    + rewrite IH. split.
      * intros (pre & it' & post & -> & Hpre & Hit'). exists (it :: pre), it', post.
        split; [reflexivity|]. split; [constructor; [by apply Hnone|done]|done].
      * intros (pre & it' & post & Heq & Hpre & Hit').
        destruct pre as [|i0 pre]; simpl in Heq; injection Heq as H1 H2; subst.
        -- apply Hf in Hit'. discriminate.
        -- inversion Hpre as [|? ? _ Hpre']; subst. exists pre, it', post. auto.
Qed.

Lemma iter_items_output data items :
  output_items data = Some items -> iter_items (assoc "output" data) = Some items.
Proof. unfold output_items. destruct (assoc "output" data) as [[]|]; simpl; congruence. Qed.

(* ================================================================== *)
(** * Claims *)

(** C1: the claim fails for the limiter the code uses: pyrate-limiter
    reports its reset estimate as [meta_info["remaining_time"]], while the
    gateway looks for [meta_info["reset_in"]], which is never there.  At a
    rejection whose reported estimate is 1.2 s (ceiling 2, the spec's own
    example) the raised OpenAIRateLimitError has no Retry-After header. *)
Theorem retry_after_missing_for_limiter_estimate :
  ∃ meta r,
    try_acquire (OPENAI_RPM_PER_KEY cfg_ff) (now g_reject) (default [] (buckets g_reject !! "sk-a")) =
      inr (BucketFullException (Some meta)) /\
    assoc "remaining_time" meta = Some (MNum r) /\ (r == 6 # 5)%Q /\ Qceiling r = 2 /\
    assoc "reset_in" meta = None /\
    ∃ g' h, call_openai_rate_limited cfg_ff g_reject "sk-a" rq0 resp_ok =
              Some (g', Exc (OpenAIRateLimitError h)) /\
            status_code h = 429 /\ assoc "Retry-After" (headers h) = None.
Proof.
  exists (bucket_full_meta (1200 # 1000)), (1200 # 1000)%Q.
  split; [vm_compute; reflexivity|]. split; [reflexivity|]. split; [reflexivity|].
  split; [reflexivity|]. split; [reflexivity|].
  eexists _, _. split; [vm_compute; reflexivity|]. split; reflexivity.
Qed.

(** C2: the slot is released on every exit path: between two quiescent
    reachable states (every call finished, some possibly raising), every
    semaphore keeps its value, which is the configured capacity. *)
Theorem slots_restored_after_calls cfg st1 st2 :
  reachable cfg st1 -> rtc (step cfg) st1 st2 -> quiescent st1 -> quiescent st2 ->
  ∀ k v, sems (glob st1) !! k = Some v ->
         sems (glob st2) !! k = Some v /\ v = OPENAI_MAX_CONCURRENCY_PER_KEY cfg.
Proof.
  intros Hr1 H12 Hq1 Hq2 k v Hv.
  assert (Hr2 : reachable cfg st2) by (eapply rtc_trans; eauto).
  pose proof (reachable_sem_inv _ _ Hr1 k) as I1. pose proof (reachable_sem_inv _ _ Hr2 k) as I2.
  rewrite (quiescent_holders _ k Hq1) in I1. rewrite (quiescent_holders _ k Hq2) in I2.
  rewrite Hv in I1.
  destruct (steps_sems_persist _ _ _ k H12 (mk_is_Some _ _ Hv)) as [v' Hv'].
  rewrite Hv' in I2. destruct I1 as [_ I1]. destruct I2 as [_ I2]. simpl in I1, I2.
  rewrite Hv'. split; [f_equal|]; lia.
Qed.

(** C3: with capacity C > 0, in every reachable state of any interleaving
    at most C calls hold the semaphore of a key. *)
Theorem holders_never_exceed_capacity cfg st k :
  0 < OPENAI_MAX_CONCURRENCY_PER_KEY cfg -> reachable cfg st ->
  Z.of_nat (holders k (threads st)) <= OPENAI_MAX_CONCURRENCY_PER_KEY cfg.
Proof.
  intros Hc Hr. pose proof (reachable_sem_inv _ _ Hr k) as I.
  destruct (sems (glob st) !! k); [lia|]. rewrite I. simpl. lia.
Qed.

(** C4: a FAIL_FAST call whose limiter step rejects raises a 429
    OpenAIRateLimitError with the configured-limit detail, gives its slot
    back (the semaphore map is as [_get_sem_for] left it), records no
    admission and never reaches [call_openai_api]; but it carries no retry
    hint: its headers are empty, since the limiter's [meta_info] has no
    [reset_in]. *)
Theorem fail_fast_rejection_has_no_retry_hint cfg g k rq resp e :
  OPENAI_RPM_FAIL_FAST cfg = true ->
  try_acquire (OPENAI_RPM_PER_KEY cfg) (now g) (default [] (buckets g !! k)) = inr e ->
  (∀ v, fst (_get_sem_for cfg k (sems g)) = Some v -> 0 < v) ->
  ∃ g' h, call_openai_rate_limited cfg g k rq resp = Some (g', Exc (OpenAIRateLimitError h)) /\
    status_code h = 429 /\ detail h = rpm_detail cfg /\ headers h = [] /\
    calls g' = calls g /\ buckets g' = buckets g /\
    sems g' = snd (_get_sem_for cfg k (sems g)).
Proof.
  intros Hff Hrej Hv. rewrite (gateway_fail_fast_path cfg g k rq resp e Hff Hrej Hv).
  destruct (try_acquire_rejects _ _ _ _ Hrej) as [r ->].
  eexists _, _. split; [reflexivity|]. done.
Qed.

(** C5: in BLOCK mode no call in any reachable state carries an
    OpenAIRateLimitError; a full window only makes the limiter step wait,
    and once the window has passed (60 s after the last admission) the
    step goes ahead. *)
Theorem block_mode_never_raises_rate_limit cfg :
  OPENAI_RPM_FAIL_FAST cfg = false ->
  (∀ st i p o, reachable cfg st -> threads st !! i = Some p -> pc_outcome p = Some o ->
     outcome_is_rate_limit o = false) /\
  (∀ g k rq h resp, Forall (fun t => (t <= now g)%Q) (default [] (buckets g !! k)) ->
     0 < OPENAI_RPM_PER_KEY cfg ->
     ∃ g' p', thread_step cfg (tick g 60) (Limiting k rq h) resp = Some (g', p')).
Proof.
  intros Hff. split.
  - intros st i p o Hr Hi Ho.
    pose proof (Forall_lookup_1 _ _ _ _ (reachable_no_rate_limit _ _ Hff Hr) Hi) as Hp.
    simpl in Hp. by rewrite Ho in Hp.
  - intros g k rq h resp Hall Hrpm. unfold thread_step. cbn [tick now buckets].
    destruct (try_acquire_after_window _ _ _ Hall Hrpm) as [b' ->]. eauto.
Qed.

(** C6: keys are isolated: a step of a call for key A leaves key B's
    semaphore and limiter bucket unchanged, and what a call for B does
    depends only on B's semaphore, B's bucket and the clock. *)
Theorem credentials_isolated cfg A B :
  A <> B ->
  (∀ g p resp g' p', pc_key p = Some A -> thread_step cfg g p resp = Some (g', p') ->
     sems g' !! B = sems g !! B /\ buckets g' !! B = buckets g !! B) /\
  (∀ g1 g2 p resp, pc_key p = Some B -> now g1 = now g2 ->
     sems g1 !! B = sems g2 !! B -> buckets g1 !! B = buckets g2 !! B ->
     option_map snd (thread_step cfg g1 p resp) = option_map snd (thread_step cfg g2 p resp)).
Proof.
  intros Hne. split.
  - intros g p resp g' p' Hk Hs. eapply thread_step_frame; eauto.
  - intros g1 g2 p resp Hk Hn Hs Hb.
    destruct p; simpl in Hk; try discriminate; injection Hk as ->; simpl.
    + unfold _get_sem_for. rewrite Hs. destruct (_ <=? 0); [done|]. by destruct (sems g2 !! B).
    + rewrite Hs. by destruct (sems g2 !! B) as [v|]; [destruct (0 <? v)|].
    + rewrite Hb, Hn. destruct (try_acquire _ _ _); [done|]. by destruct (OPENAI_RPM_FAIL_FAST cfg).
    + done.
    + rewrite Hs. by destruct held; [destruct (sems g2 !! B)|].
Qed.

(** C7: a call returns [call_openai_api]'s result or exception unchanged
    (having invoked it once), or else it raised OpenAIRateLimitError without
    invoking it; the caller's own outcome is never an OpenAIRateLimitError. *)
Theorem gateway_passes_caller_outcome_through cfg g k rq resp g' o :
  call_openai_rate_limited cfg g k rq resp = Some (g', o) ->
  (calls g' = calls g ++ [(k, rq)] /\ o = call_openai_api k rq resp /\ outcome_is_rate_limit o = false) \/
  (calls g' = calls g /\ ∃ h, o = Exc (OpenAIRateLimitError h) /\ status_code h = 429).
Proof.
  intros H. destruct (gateway_paths _ _ _ _ _ _ _ H) as [[Hc ->]|Hr]; [left|by right].
  split; [done|]. split; [done|].
  destruct (call_openai_api k rq resp) eqn:E; [done|].
  by destruct (call_openai_api_exc cfg _ _ _ _ E) as [_ ?].
Qed.

(** C8: with OPENAI_MAX_CONCURRENCY_PER_KEY = 0 the gate does nothing:
    [_get_sem_for] gives [None] without touching [_sems], the entry step
    goes straight to the limiter, the exit step changes nothing, and in
    every reachable state no semaphore exists and no call waits on or
    holds one. *)
Theorem gate_disabled_is_noop cfg :
  OPENAI_MAX_CONCURRENCY_PER_KEY cfg = 0 ->
  (∀ k s, _get_sem_for cfg k s = (None, s)) /\
  (∀ g k rq resp, thread_step cfg g (Start k rq) resp = Some (g, Limiting k rq false)) /\
  (∀ g k o resp, thread_step cfg g (Releasing k false o) resp = Some (g, Done o)) /\
  (∀ st, reachable cfg st -> sems (glob st) = ∅ /\ Forall (fun p => gate_free p = true) (threads st)).
Proof.
  intros Hc.
  assert (Hg : ∀ k s, _get_sem_for cfg k s = (None, s)) by (intros; unfold _get_sem_for; by rewrite Hc).
  split; [exact Hg|]. split; [|split].
  - intros g k rq resp. simpl. rewrite Hg. by destruct g.
  - done.
  - intros st Hr. apply (reachable_gate_off cfg st); [lia|exact Hr].
Qed.

(** C9: the claim fails: a payload whose [output] list holds a non-object
    item before an item with a [text] field makes the function raise
    AttributeError ([item.get] on the number; the loop over content blocks
    checks [isinstance(c, dict)], the loop over items does not), although a
    known shape matches. *)
Theorem extract_text_odd_item_fails :
  extract_text_from_response data_odd_item = inl AttributeError_get /\
  top_level_text data_odd_item = None /\
  output_items data_odd_item = Some [JNum 5; JObj [("text", JStr "hi")]] /\
  item_has_shape (JObj [("text", JStr "hi")]) (Text "hi").
Proof. split; [done|]. split; [done|]. split; [done|]. by right. Qed.

(** C10: the [except BucketFullException] arm always builds a 429
    OpenAIRateLimitError, with a Retry-After header exactly when the
    exception's [meta_info] has a [reset_in] that [float] accepts and that
    is non-negative; and every OpenAIRateLimitError the gateway ends with
    has status 429. *)
Theorem rate_limit_error_status_and_header cfg meta :
  (∃ h, except_bucket_full cfg (BucketFullException meta) = OpenAIRateLimitError h /\
     status_code h = 429 /\
     ((∃ v, assoc "Retry-After" (headers h) = Some v) <->
      ∃ m r, meta = Some m /\ assoc "reset_in" m = Some (MNum r) /\ (0 <= r)%Q)) /\
  (∀ g k rq resp g' h, call_openai_rate_limited cfg g k rq resp = Some (g', Exc (OpenAIRateLimitError h)) ->
     status_code h = 429).
Proof.
  split.
  - eexists. split; [reflexivity|]. split; [done|]. simpl. unfold rate_limit_headers.
    destruct meta as [m|]; simpl.
    2: { split; [intros [v Hv]; discriminate|intros (m & r & Hm & _); discriminate]. }
    destruct (assoc "reset_in" m) as [[r|]|] eqn:E.
    + destruct (Qle_bool 0 r) eqn:Hq.
      * split; [intros _; exists m, r; split; [done|]; split; [done|]; by apply Qle_bool_iff|].
        intros _. simpl. eauto.
      * split; [intros [v Hv]; discriminate|].
        intros (m' & r' & [= <-] & Hr' & Hle). rewrite E in Hr'. injection Hr' as <-.
        apply Qle_bool_iff in Hle. congruence.
    + split; [intros [v Hv]; discriminate|].
      intros (m' & r' & [= <-] & Hr' & _). congruence.
    + split; [intros [v Hv]; discriminate|].
      intros (m' & r' & [= <-] & Hr' & _). congruence.
  - intros g k rq resp g' h H.
    destruct (gateway_paths _ _ _ _ _ _ _ H) as [[_ Ho]|[_ (h' & [= <-] & ?)]]; [|done].
    destruct (call_openai_api k rq resp) eqn:E; [discriminate|].
    injection Ho as <-. by destruct (call_openai_api_exc cfg _ _ _ _ E) as [_ ?].
Qed.

(* ================================================================== *)
(** * Witnesses *)

Lemma slots_restored_after_calls_witness :
  reachable cfg_block st_one /\ rtc (step cfg_block) st_one st_two /\
  quiescent st_one /\ quiescent st_two /\ sems (glob st_one) !! "sk-a" = Some 2 /\
  (sems (glob st_two) !! "sk-a" = Some 2 /\ 2 = OPENAI_MAX_CONCURRENCY_PER_KEY cfg_block).
Proof.
  assert (H1 : reachable cfg_block st_one)
    by (apply (run_sched_rtc _ _ sched_ok); vm_compute; reflexivity).
  assert (H12 : rtc (step cfg_block) st_one st_two)
    by (apply (run_sched_rtc _ _ sched_fail); vm_compute; reflexivity).
  assert (Q1 : quiescent st_one) by (vm_compute; repeat econstructor).
  assert (Q2 : quiescent st_two) by (vm_compute; repeat econstructor).
  assert (Hv : sems (glob st_one) !! "sk-a" = Some 2) by (vm_compute; reflexivity).
  split; [exact H1|]. split; [exact H12|]. split; [exact Q1|]. split; [exact Q2|].
  split; [exact Hv|].
  exact (slots_restored_after_calls cfg_block st_one st_two H1 H12 Q1 Q2 "sk-a" 2 Hv).
Defined.

Lemma holders_never_exceed_capacity_witness :
  0 < OPENAI_MAX_CONCURRENCY_PER_KEY cfg_block /\ reachable cfg_block st_holding /\
  holders "sk-a" (threads st_holding) = 1%nat /\
  Z.of_nat (holders "sk-a" (threads st_holding)) <= OPENAI_MAX_CONCURRENCY_PER_KEY cfg_block.
Proof.
  assert (Hc : 0 < OPENAI_MAX_CONCURRENCY_PER_KEY cfg_block) by (vm_compute; reflexivity).
  assert (Hr : reachable cfg_block st_holding)
    by (apply (run_sched_rtc _ _ [ASpawn "sk-a" rq0; AStep 0 resp_ok; AStep 0 resp_ok]);
        vm_compute; reflexivity).
  split; [exact Hc|]. split; [exact Hr|]. split; [vm_compute; reflexivity|].
  exact (holders_never_exceed_capacity cfg_block st_holding "sk-a" Hc Hr).
Defined.

Lemma fail_fast_rejection_has_no_retry_hint_witness :
  OPENAI_RPM_FAIL_FAST cfg_ff = true /\
  try_acquire (OPENAI_RPM_PER_KEY cfg_ff) (now g_reject) (default [] (buckets g_reject !! "sk-a")) =
    inr (BucketFullException (Some (bucket_full_meta (1200 # 1000)))) /\
  ∃ g' h, call_openai_rate_limited cfg_ff g_reject "sk-a" rq0 resp_ok =
            Some (g', Exc (OpenAIRateLimitError h)) /\
    status_code h = 429 /\ detail h = rpm_detail cfg_ff /\ headers h = [] /\
    calls g' = calls g_reject /\ buckets g' = buckets g_reject /\
    sems g' = snd (_get_sem_for cfg_ff "sk-a" (sems g_reject)).
Proof.
  assert (Hff : OPENAI_RPM_FAIL_FAST cfg_ff = true) by reflexivity.
  assert (Hrej : try_acquire (OPENAI_RPM_PER_KEY cfg_ff) (now g_reject)
                   (default [] (buckets g_reject !! "sk-a")) =
                 inr (BucketFullException (Some (bucket_full_meta (1200 # 1000)))))
    by (vm_compute; reflexivity).
  assert (Hv : ∀ v, fst (_get_sem_for cfg_ff "sk-a" (sems g_reject)) = Some v -> 0 < v)
    by (intros v H; vm_compute in H; injection H as <-; lia).
  split; [exact Hff|]. split; [exact Hrej|].
  exact (fail_fast_rejection_has_no_retry_hint cfg_ff g_reject "sk-a" rq0 resp_ok _ Hff Hrej Hv).
Defined.

Lemma block_mode_never_raises_rate_limit_witness :
  OPENAI_RPM_FAIL_FAST cfg_block = false /\
  (∀ st i p o, reachable cfg_block st -> threads st !! i = Some p -> pc_outcome p = Some o ->
     outcome_is_rate_limit o = false) /\
  (∀ g k rq h resp, Forall (fun t => (t <= now g)%Q) (default [] (buckets g !! k)) ->
     0 < OPENAI_RPM_PER_KEY cfg_block ->
     ∃ g' p', thread_step cfg_block (tick g 60) (Limiting k rq h) resp = Some (g', p')).
Proof.
  assert (Hff : OPENAI_RPM_FAIL_FAST cfg_block = false) by reflexivity.
  split; [exact Hff|]. exact (block_mode_never_raises_rate_limit cfg_block Hff).
Defined.

Lemma credentials_isolated_witness :
  "sk-a" <> "sk-b" /\
  (∀ g p resp g' p', pc_key p = Some "sk-a" -> thread_step cfg_block g p resp = Some (g', p') ->
     sems g' !! "sk-b" = sems g !! "sk-b" /\ buckets g' !! "sk-b" = buckets g !! "sk-b") /\
  (∀ g1 g2 p resp, pc_key p = Some "sk-b" -> now g1 = now g2 ->
     sems g1 !! "sk-b" = sems g2 !! "sk-b" -> buckets g1 !! "sk-b" = buckets g2 !! "sk-b" ->
     option_map snd (thread_step cfg_block g1 p resp) = option_map snd (thread_step cfg_block g2 p resp)).
Proof.
  assert (Hne : "sk-a" <> "sk-b") by discriminate.
  split; [exact Hne|]. exact (credentials_isolated cfg_block "sk-a" "sk-b" Hne).
Defined.

Lemma gateway_passes_caller_outcome_through_witness :
  ∃ g' o, call_openai_rate_limited cfg_block g_empty "sk-a" rq0 resp_ok = Some (g', o) /\
  ((calls g' = calls g_empty ++ [("sk-a", rq0)] /\ o = call_openai_api "sk-a" rq0 resp_ok /\
    outcome_is_rate_limit o = false) \/
   (calls g' = calls g_empty /\ ∃ h, o = Exc (OpenAIRateLimitError h) /\ status_code h = 429)).
Proof.
  eexists _, _.
  assert (H : call_openai_rate_limited cfg_block g_empty "sk-a" rq0 resp_ok =
              Some (_, Ret (JObj [("output_text", JStr "{}")]))) by (vm_compute; reflexivity).
  split; [exact H|]. exact (gateway_passes_caller_outcome_through _ _ _ _ _ _ _ H).
Defined.

Lemma gate_disabled_is_noop_witness :
  OPENAI_MAX_CONCURRENCY_PER_KEY cfg_nogate = 0 /\
  (∀ k s, _get_sem_for cfg_nogate k s = (None, s)) /\
  (∀ g k rq resp, thread_step cfg_nogate g (Start k rq) resp = Some (g, Limiting k rq false)) /\
  (∀ g k o resp, thread_step cfg_nogate g (Releasing k false o) resp = Some (g, Done o)) /\
  (∀ st, reachable cfg_nogate st -> sems (glob st) = ∅ /\ Forall (fun p => gate_free p = true) (threads st)).
Proof.
  assert (Hc : OPENAI_MAX_CONCURRENCY_PER_KEY cfg_nogate = 0) by reflexivity.
  split; [exact Hc|]. exact (gate_disabled_is_noop cfg_nogate Hc).
Defined.


(* ================================================================== *)
(** * Further properties of the service code *)

Lemma lit_0_9_nearest : 2 * Z.abs (mant lit_0_9 * 10 - 9 * 2 ^ 53) <= 10.
Proof. vm_compute. discriminate. Qed.

Lemma round_half_even_shift_bounds n s :
  0 <= n -> 0 < s ->
  n - 2 ^ s < round_half_even_shift n s * 2 ^ s <= n + 2 ^ s /\ 0 <= round_half_even_shift n s.
Proof.
  intros Hn Hs. unfold round_half_even_shift.
  assert (Hp : 0 < 2 ^ s) by (apply Z.pow_pos_nonneg; lia).
  pose proof (Z.div_mod n (2 ^ s) ltac:(lia)) as Hdm.
  pose proof (Z.mod_pos_bound n (2 ^ s) Hp) as Hb.
  assert (Hq : 0 <= n / 2 ^ s) by (apply Z.div_pos; lia).
  set (q := n / 2 ^ s) in *. set (r := n mod 2 ^ s) in *.
  assert (Hr : n - q * 2 ^ s = r) by lia. rewrite Hr.
  destruct (2 * r <? 2 ^ s); [nia|].
  destruct (2 ^ s <? 2 * r); [nia|].
  destruct (Z.even q); nia.
Qed.

(** Rounding a non-negative exact value: either it is kept, or it is
    shifted by [s > 0] bits with an error below [2^s], where [2^(s+52) <= a]. *)
Lemma round53_nonneg a e :
  0 <= a ->
  (round53 a e = {| mant := a; expo := e |} /\ a < 2 ^ 53) \/
  ∃ s, 0 < s /\ expo (round53 a e) = e + s /\ 0 <= mant (round53 a e) /\
       2 ^ s * 2 ^ 52 <= a /\
       a - 2 ^ s < mant (round53 a e) * 2 ^ s <= a + 2 ^ s.
Proof.
  intros Ha. unfold round53. rewrite Z.abs_eq by lia.
  destruct (Z.ltb_spec a (2 ^ 53)) as [Hlt|Hge]; [left; split; [reflexivity|lia]|right].
  assert (Hl : 53 <= Z.log2 a).
  { rewrite <- (Z.log2_pow2 53) by lia. apply Z.log2_le_mono. lia. }
  exists (Z.log2 a - 52). simpl.
  assert (Hsg : Z.sgn a = 1) by (apply Z.sgn_pos; lia). rewrite Hsg, Z.mul_1_l.
  pose proof (round_half_even_shift_bounds a (Z.log2 a - 52) Ha ltac:(lia)) as [Hb Hnn].
  split; [lia|]. split; [reflexivity|]. split; [exact Hnn|]. split; [|exact Hb].
  rewrite <- Z.pow_add_r by lia. replace (Z.log2 a - 52 + 52) with (Z.log2 a) by lia.
  apply Z.log2_spec. lia.
Qed.

Lemma py_ceil_neg_ge m k K :
  0 < k -> (K - 1) * 2 ^ k < m -> K <= - ((- m) / 2 ^ k).
Proof.
  intros Hk H. assert (Hp : 0 < 2 ^ k) by (apply Z.pow_pos_nonneg; lia).
  assert ((- m) / 2 ^ k < 1 - K); [|lia].
  apply Z.div_lt_upper_bound; lia.
Qed.

Lemma py_ceil_neg_le m k K :
  0 < k -> m <= K * 2 ^ k -> - ((- m) / 2 ^ k) <= K.
Proof.
  intros Hk H. assert (Hp : 0 < 2 ^ k) by (apply Z.pow_pos_nonneg; lia).
  assert (- K <= (- m) / 2 ^ k); [|lia].
  apply Z.div_le_lower_bound; lia.
Qed.

Lemma float_of_int_small n : 0 <= n < 2 ^ 53 -> float_of_int n = {| mant := n; expo := 0 |}.
Proof.
  intros H. unfold float_of_int, round53. rewrite Z.abs_eq by lia.
  destruct (Z.ltb_spec n (2 ^ 53)); [reflexivity|lia].
Qed.

(** The scaled action size: [math.ceil(input_tokens * ACTION_TOKEN_MULTIPLIER)]. *)
Lemma action_scaled_bounds n :
  0 <= n < 2 ^ 53 ->
  let c := py_ceil (float_mul (float_of_int n) ACTION_TOKEN_MULTIPLIER) in
  0 <= c /\ (783 <= n -> 5632 <= c) /\ (n <= 782 -> c <= 5631).
Proof.
  intros Hn c. subst c.
  rewrite float_of_int_small by exact Hn.
  assert (HM : ACTION_TOKEN_MULTIPLIER = {| mant := 8106479329266893; expo := -50 |})
    by (vm_compute; reflexivity).
  rewrite HM. unfold float_mul, py_ceil; simpl mant; simpl expo.
  set (a := n * 8106479329266893).
  assert (Ha : 0 <= a) by (subst a; lia).
  destruct (round53_nonneg a (0 + -50) Ha) as [[-> Hlt] | (s & Hs & He & Hm & Hpow & Hlo & Hhi)].
  - simpl. replace (- (0 + -50)) with 50 by lia. cbn [Z.leb Z.compare Z.add].
    repeat split.
    + apply (py_ceil_neg_ge a 50 0); [lia|]. lia.
    + intros H. apply (py_ceil_neg_ge a 50 5632); [lia|]. subst a.
      replace (2 ^ 50) with 1125899906842624 by reflexivity. lia.
    + intros H. apply (py_ceil_neg_le a 50 5631); [lia|]. subst a.
      replace (2 ^ 50) with 1125899906842624 by reflexivity. lia.
  - rewrite He. set (m := mant (round53 a (0 + -50))) in *.
    assert (Hp : 0 < 2 ^ s) by (apply Z.pow_pos_nonneg; lia).
    replace (2 ^ 52) with 4503599627370496 in Hpow by reflexivity.
    destruct (Z.leb_spec 0 (0 + -50 + s)) as [Hs50|Hs50].
    + (* the value is an integer of at least 2^52 *)
      assert (Hm52 : 4503599627370495 < m) by nia.
      assert (1 <= 2 ^ (0 + -50 + s)) by (apply (Z.pow_le_mono_r 2 0); lia).
      repeat split; try nia.
      intros Hle. exfalso.
      assert (Hs' : s < 50); [|lia].
      assert (2 ^ s < 2 ^ 50); [|apply (Z.pow_lt_mono_r_iff 2); lia].
      replace (2 ^ 50) with 1125899906842624 by reflexivity. subst a. nia.
    + replace (- (0 + -50 + s)) with (50 - s) by lia.
      assert (H50 : 2 ^ (50 - s) * 2 ^ s = 1125899906842624).
      { rewrite <- Z.pow_add_r by lia. replace (50 - s + s) with 50 by lia. reflexivity. }
      assert (Hp' : 0 < 2 ^ (50 - s)) by (apply Z.pow_pos_nonneg; lia).
      repeat split.
      * apply (py_ceil_neg_ge m (50 - s) 0); lia.
      * intros H. apply (py_ceil_neg_ge m (50 - s) 5632); [lia|].
        assert (Hx : 5631 * 1125899906842624 < m * 2 ^ s) by (subst a; nia).
        nia.
      * intros H. apply (py_ceil_neg_le m (50 - s) 5631); [lia|].
        assert (Hx : m * 2 ^ s <= 5631 * 1125899906842624) by (subst a; nia).
        nia.
Qed.

(** X1: [approx_tokens_from_chars] is at least 1, and for a positive
    number of characters it is the ceiling of chars / 4. *)
Theorem approx_tokens_is_ceiling n :
  1 <= approx_tokens_from_chars n /\
  (1 <= n -> CHARS_PER_TOKEN * (approx_tokens_from_chars n - 1) < n <= CHARS_PER_TOKEN * approx_tokens_from_chars n).
Proof.
  unfold approx_tokens_from_chars, CHARS_PER_TOKEN. split; [lia|].
  intros Hn. pose proof (Z.div_mod (n + 4 - 1) 4 ltac:(lia)).
  pose proof (Z.mod_pos_bound (n + 4 - 1) 4 ltac:(lia)). lia.
Qed.

(** X2: without an override, the action budget lies between 512 and 6144
    for every input below 2^53 tokens, and reaches the 6144 cap exactly from
    783 input tokens on (float rounding of [input * 7.2] included). *)
Theorem action_budget_bounds n :
  0 <= n < 2 ^ 53 ->
  ACTION_TOKEN_BASE <= calculate_max_output_tokens n "action" None <= ACTION_MAX_OUTPUT_TOKENS /\
  (calculate_max_output_tokens n "action" None = ACTION_MAX_OUTPUT_TOKENS <-> 783 <= n).
Proof.
  intros Hn. destruct (action_scaled_bounds n Hn) as (H0 & Hge & Hle).
  unfold calculate_max_output_tokens. simpl.
  set (c := py_ceil (float_mul (float_of_int n) ACTION_TOKEN_MULTIPLIER)) in *.
  unfold ACTION_TOKEN_BASE, ACTION_MAX_OUTPUT_TOKENS, MIN_OUTPUT_TOKENS.
  split; [lia|]. split.
  - intros H. destruct (Z.le_gt_cases 783 n) as [|Hlt]; [lia|]. specialize (Hle ltac:(lia)). lia.
  - intros H. specialize (Hge H). lia.
Qed.

Lemma scan_object_app cs more d i e n :
  scan_object cs d i e = Some n -> scan_object (cs ++ more) d i e = Some n.
Proof.
  revert d i e n. induction cs as [|ch cs IH]; intros d i e n H; simpl in *; [discriminate|].
  repeat (case_match; simpl in *); try discriminate; try assumption;
    destruct (scan_object cs _ _ _) eqn:Hs; simpl in *; try discriminate;
    erewrite IH by exact Hs; exact H.
Qed.

Lemma scan_object_take cs d i e n :
  scan_object cs d i e = Some n ->
  (0 < n <= length cs)%nat /\ scan_object (take n cs) d i e = Some n /\ cs !! (n - 1)%nat = Some ch_rbrace.
Proof.
  revert d i e n. induction cs as [|ch cs IH]; intros d i e n H; simpl in H; [discriminate|].
  destruct i; [destruct e|].
  all: repeat match type of H with
         | context [if ?b then _ else _] => let Hb := fresh "Hb" in destruct b eqn:Hb
         end; simpl in H.
  all: try (injection H as <-; simpl; rewrite ?Hb, ?Hb0, ?Hb1, ?Hb2;
            split; [lia|]; split; [reflexivity|];
            apply Ascii.eqb_eq in Hb1; subst ch; reflexivity).
  all: destruct (scan_object cs _ _ _) as [m|] eqn:Hs; simpl in H; try discriminate;
       injection H as <-; destruct (IH _ _ _ _ Hs) as (Hb' & Ht & Hl);
       split; [simpl; lia|]; split;
       [simpl; rewrite ?Hb, ?Hb0, ?Hb1, ?Hb2, ?Hb3; rewrite Ht; reflexivity
       |replace (S m - 1)%nat with (S (m - 1)) by lia; exact Hl].
Qed.

Lemma find_char_some c cs i :
  find_char c cs = Some i -> cs !! i = Some c /\ c ∉ take i cs.
Proof.
  revert i. induction cs as [|d cs IH]; intros i H; simpl in H; [discriminate|].
  destruct (Ascii.eqb_spec d c) as [->|Hne].
  - injection H as <-. split; [reflexivity|]. apply not_elem_of_nil.
  - destruct (find_char c cs) as [j|] eqn:Hj; simpl in H; [|discriminate].
    injection H as <-. destruct (IH j eq_refl) as [H1 H2]. split; [exact H1|].
    simpl. rewrite elem_of_cons. intros [->|Hin]; [congruence|contradiction].
Qed.

Lemma find_char_app_l c pre cs : c ∉ pre -> find_char c (pre ++ cs) = option_map (Nat.add (length pre)) (find_char c cs).
Proof.
  induction pre as [|d pre IH]; intros Hn; simpl.
  - destruct (find_char c cs); reflexivity.
  - rewrite elem_of_cons in Hn. destruct (Ascii.eqb_spec d c) as [->|_]; [exfalso; apply Hn; left; reflexivity|].
    rewrite IH by (intros Hin; apply Hn; right; exact Hin).
    destruct (find_char c cs); reflexivity.
Qed.

Lemma find_char_app_r c cs more i : find_char c cs = Some i -> find_char c (cs ++ more) = Some i.
Proof.
  revert i. induction cs as [|d cs IH]; intros i H; simpl in *; [discriminate|].
  destruct (Ascii.eqb d c); [exact H|].
  destruct (find_char c cs) as [j|] eqn:Hj; simpl in H; [|discriminate].
  rewrite (IH j eq_refl). exact H.
Qed.

Lemma first_json_slice_inr text s :
  first_json_slice text = inr s ->
  ∃ start n, find_char ch_lbrace text = Some start /\
    scan_object (drop start text) 0 false false = Some n /\ s = take n (drop start text).
Proof.
  unfold first_json_slice. intros H.
  destruct (find_char ch_lbrace text) as [start|]; [|discriminate].
  destruct (scan_object (drop start text) 0 false false) as [n|] eqn:Hs; [|discriminate].
  injection H as <-. exists start, n. auto.
Qed.

(** X3: the slice handed to [json.loads] is a contiguous part of the text
    that starts at its first opening brace and ends with a closing brace. *)
Theorem first_json_slice_shape text s :
  first_json_slice text = inr s ->
  ∃ pre post, text = pre ++ s ++ post /\ (ch_lbrace ∉ pre) /\
              s !! O = Some ch_lbrace /\ last s = Some ch_rbrace.
Proof.
  intros H. destruct (first_json_slice_inr text s H) as (start & n & Hf & Hs & ->).
  destruct (find_char_some _ _ _ Hf) as [Hat Hpre].
  destruct (scan_object_take _ _ _ _ _ Hs) as (Hn & _ & Hlast).
  exists (take start text), (drop n (drop start text)). split; [|split; [exact Hpre|split]].
  - rewrite take_drop. symmetry. apply take_drop.
  - rewrite lookup_take, decide_True by lia. rewrite lookup_drop. rewrite Nat.add_0_r. exact Hat.
  - rewrite last_lookup. rewrite length_take. replace (Nat.min n (length (drop start text))) with n by lia.
    rewrite lookup_take, decide_True by lia. rewrite <- Nat.sub_1_r. exact Hlast.
Qed.

(** X4: text before the object (with no opening brace) and any text after it
    do not change the slice. *)
Theorem first_json_slice_in_context pre text post s :
  ch_lbrace ∉ pre -> first_json_slice text = inr s ->
  first_json_slice (pre ++ text ++ post) = inr s.
Proof.
  intros Hpre H. destruct (first_json_slice_inr text s H) as (start & n & Hf & Hs & ->).
  destruct (find_char_some _ _ _ Hf) as [Hat _].
  destruct (scan_object_take _ _ _ _ _ Hs) as (Hn & _ & _).
  assert (Hlt : (start < length text)%nat) by (apply lookup_lt_Some in Hat; exact Hat).
  unfold first_json_slice. rewrite find_char_app_l by exact Hpre.
  rewrite (find_char_app_r _ _ _ _ Hf). simpl.
  rewrite drop_app_add. rewrite drop_app_le by lia.
  rewrite (scan_object_app _ _ _ _ _ _ Hs).
  rewrite take_app_le by lia. reflexivity.
Qed.

(** X5: slicing the slice again gives the same slice. *)
Theorem first_json_slice_idempotent text s :
  first_json_slice text = inr s -> first_json_slice s = inr s.
Proof.
  intros H. destruct (first_json_slice_shape text s H) as (_ & _ & _ & _ & H0 & _).
  destruct (first_json_slice_inr text s H) as (start & n & Hf & Hs & Hsd).
  destruct (scan_object_take _ _ _ _ _ Hs) as (Hn & Ht & _).
  rewrite <- Hsd in Ht.
  assert (Hfind : find_char ch_lbrace s = Some 0%nat).
  { destruct s as [|c s']; [discriminate|]. simpl in H0. injection H0 as ->. reflexivity. }
  unfold first_json_slice. rewrite Hfind, drop_0, Ht, Hsd. rewrite take_idemp. reflexivity.
Qed.

Lemma assoc_dict_set {A} k k' (v : A) d :
  assoc k (dict_set k' v d) = if String.eqb k k' then Some v else assoc k d.
Proof.
  induction d as [|[k1 v1] d IH]; simpl.
  - destruct (String.eqb k k'); reflexivity.
  - destruct (String.eqb_spec k' k1) as [->|Hne]; simpl.
    + destruct (String.eqb k k1); reflexivity.
    + rewrite IH. destruct (String.eqb_spec k k') as [->|]; [|reflexivity].
      destruct (String.eqb_spec k' k1); [congruence|reflexivity].
Qed.

Lemma desired_fold_assoc rs keys f k :
  assoc k (fold_left (fun f key => match first_with_key key rs with
                                   | Some v => dict_set key v f
                                   | None => f end) keys f) =
  match (if bool_decide (k ∈ keys) then first_with_key k rs else None) with
  | Some v => Some v
  | None => assoc k f
  end.
Proof.
  revert f. induction keys as [|key keys IH]; intros f; simpl.
  - try rewrite bool_decide_false by apply not_elem_of_nil; reflexivity.
  - rewrite IH. destruct (bool_decide_reflect (k ∈ keys)) as [Hin|Hnin].
    + rewrite bool_decide_true by (apply elem_of_cons; right; exact Hin).
      destruct (first_with_key k rs) eqn:Hk; [reflexivity|].
      destruct (first_with_key key rs) eqn:Hkey; [|reflexivity].
      rewrite assoc_dict_set. destruct (String.eqb_spec k key) as [->|]; congruence.
    + destruct (String.eqb_spec k key) as [->|Hne].
      * rewrite bool_decide_true by (apply elem_of_cons; left; reflexivity).
        destruct (first_with_key key rs) eqn:Hkey; [|reflexivity].
        rewrite assoc_dict_set, String.eqb_refl. reflexivity.
      * rewrite bool_decide_false by (rewrite elem_of_cons; intros [|]; contradiction).
        destruct (first_with_key key rs); [|reflexivity].
        rewrite assoc_dict_set. rewrite (proj2 (String.eqb_neq _ _) Hne). reflexivity.
Qed.

Lemma add_missing_assoc d f k :
  assoc k (add_missing d f) = match assoc k f with Some v => Some v | None => assoc k d end.
Proof.
  unfold add_missing. revert f. induction d as [|[k1 v1] d IH]; intros f; simpl.
  - destruct (assoc k f); reflexivity.
  - rewrite IH. destruct (assoc k1 f) eqn:H1.
    + destruct (String.eqb_spec k k1) as [->|]; [rewrite H1; reflexivity|reflexivity].
    + rewrite assoc_dict_set. destruct (String.eqb_spec k k1) as [->|]; [rewrite H1; reflexivity|reflexivity].
Qed.

Lemma rest_loop_spec rs f failed f' failed' :
  rest_loop rs f failed = Some (f', failed') ->
  failed' = failed ++ concat (map failure_entry rs) /\
  ∀ k, assoc k f' = match assoc k f with Some v => Some v | None => first_with_key k rs end.
Proof.
  revert f failed. induction rs as [|[ptype r] rs IH]; intros f failed H; simpl in H.
  - injection H as <- <-. split; [rewrite app_nil_r; reflexivity|]. intros k. destruct (assoc k f); reflexivity.
  - destruct r as [[]|err]; try discriminate.
    + destruct (IH _ _ H) as [Hf Hk]. split; [exact Hf|]. intros k. rewrite Hk, add_missing_assoc. simpl.
      destruct (assoc k f); [reflexivity|]. destruct (assoc k kvs); reflexivity.
    + destruct (IH _ _ H) as [Hf Hk]. split; [rewrite Hf, <- app_assoc; reflexivity|]. exact Hk.
Qed.

Lemma rest_loop_none rs f failed :
  rest_loop rs f failed = None <-> ∃ ptype v, (ptype, RSuccess v) ∈ rs /\ ¬ is_obj v.
Proof.
  revert f failed. induction rs as [|[ptype r] rs IH]; intros f failed; simpl.
  - split; [discriminate|]. intros (? & ? & Hin & _). apply not_elem_of_nil in Hin. contradiction.
  - destruct r as [[]|err].
    all: try (split; [intros _; eexists _, _; split; [left; reflexivity|simpl; tauto]|reflexivity]).
    + rewrite IH. split.
      * intros (p & v & Hin & Hv). exists p, v. split; [right; exact Hin|exact Hv].
      * intros (p & v & Hin & Hv). apply elem_of_cons in Hin as [Heq|Hin].
        -- injection Heq as -> ->. simpl in Hv. tauto.
        -- exists p, v. auto.
    + rewrite IH. split.
      * intros (p & v & Hin & Hv). exists p, v. split; [right; exact Hin|exact Hv].
      * intros (p & v & Hin & Hv). apply elem_of_cons in Hin as [Heq|Hin]; [discriminate|].
        exists p, v. auto.
Qed.

(** X6: in the merged batch result, every key other than
    [_execution_errors] holds the value of the first successful result (in
    results order) that has it; [_execution_errors] lists the failures in
    order when there are any. *)
Theorem merge_results_first_wins rs final :
  merge_results rs = Some final ->
  (∀ k, k <> "_execution_errors" -> assoc k final = first_with_key k rs) /\
  assoc "_execution_errors" final =
    match concat (map failure_entry rs) with
    | [] => first_with_key "_execution_errors" rs
    | fs => Some (JArr fs)
    end.
Proof.
  unfold merge_results. destruct (rest_loop rs (desired_loop rs []) []) as [[f failed]|] eqn:Hr; [|discriminate].
  intros H. injection H as <-. destruct (rest_loop_spec _ _ _ _ _ Hr) as [Hf Hk]. simpl in Hf. subst failed.
  assert (Hall : ∀ k, assoc k f = first_with_key k rs).
  { intros k. rewrite Hk. unfold desired_loop. rewrite desired_fold_assoc. simpl.
    destruct (bool_decide (k ∈ DESIRED_KEY_ORDER)); [|reflexivity].
    destruct (first_with_key k rs); reflexivity. }
  destruct (concat (map failure_entry rs)) as [|e es] eqn:He.
  - split; [intros k _|]; apply Hall.
  - split.
    + intros k Hne. rewrite assoc_dict_set. rewrite (proj2 (String.eqb_neq _ _) Hne). apply Hall.
    + rewrite assoc_dict_set. reflexivity.
Qed.

(** X7: the merge raises (AttributeError) exactly when some successful
    result's data is not a JSON object. *)
Theorem merge_results_attribute_error rs :
  merge_results rs = None <-> ∃ ptype v, (ptype, RSuccess v) ∈ rs /\ ¬ is_obj v.
Proof.
  rewrite <- (rest_loop_none rs (desired_loop rs []) []). unfold merge_results.
  destruct (rest_loop rs (desired_loop rs []) []) as [[f failed]|]; split; congruence.
Qed.

Lemma assoc_app {A} k (l1 l2 : list (string * A)) :
  assoc k (l1 ++ l2) = match assoc k l1 with Some v => Some v | None => assoc k l2 end.
Proof.
  induction l1 as [|[k1 v1] l1 IH]; simpl; [reflexivity|].
  destruct (String.eqb k k1); [reflexivity|exact IH].
Qed.

Lemma dict_set_keys {A} k (v : A) d :
  map fst (dict_set k v d) = if bool_decide (k ∈ map fst d) then map fst d else map fst d ++ [k].
Proof.
  induction d as [|[k1 v1] d IH]; simpl; [reflexivity|].
  destruct (String.eqb_spec k k1) as [->|Hne]; simpl.
  - rewrite bool_decide_true by (apply elem_of_cons; left; reflexivity). reflexivity.
  - rewrite IH. destruct (bool_decide_reflect (k ∈ map fst d)) as [Hin|Hnin].
    + rewrite bool_decide_true by (apply elem_of_cons; right; exact Hin). reflexivity.
    + rewrite bool_decide_false by (rewrite elem_of_cons; intros [|]; contradiction). reflexivity.
Qed.

Lemma collect_fold_spec (c : list (string * exec_result)) d :
  let d' := fold_left (fun d '(k, r) => dict_set k r d) c d in
  (∀ k, assoc k d' = match assoc k (reverse c) with Some v => Some v | None => assoc k d end) /\
  (NoDup (map fst d) -> NoDup (map fst d')) /\
  (∀ k, k ∈ map fst d' <-> k ∈ map fst d \/ k ∈ map fst c).
Proof.
  revert d. induction c as [|[k1 r1] c IH]; intros d; simpl.
  - split; [intros k; destruct (assoc k d); reflexivity|]. split; [auto|]. intros k.
    split; [tauto|]. intros [H|H]; [exact H|apply not_elem_of_nil in H; contradiction].
  - destruct (IH (dict_set k1 r1 d)) as (H1 & H2 & H3). split; [|split].
    + intros k. rewrite H1, reverse_cons, assoc_app, assoc_dict_set. simpl.
      destruct (assoc k (reverse c)); [reflexivity|]. destruct (String.eqb k k1); reflexivity.
    + intros Hnd. apply H2. rewrite dict_set_keys.
      destruct (bool_decide_reflect (k1 ∈ map fst d)); [exact Hnd|].
      apply NoDup_app. split; [exact Hnd|]. split; [|apply NoDup_singleton].
      intros x Hx Hx'. apply list_elem_of_singleton in Hx'. subst. contradiction.
    + intros k. rewrite H3, dict_set_keys, elem_of_cons.
      destruct (bool_decide_reflect (k1 ∈ map fst d)) as [Hin|Hnin].
      * split; [tauto|]. intros [|[->|]]; auto.
      * rewrite elem_of_app, list_elem_of_singleton. tauto.
Qed.

(** X8: results are keyed by prompt type: for a repeated prompt type the
    result that completed last is kept, and each type appears once. *)
Theorem collect_results_last_wins (c : list (string * exec_result)) :
  (∀ k, assoc k (collect_results c) = assoc k (reverse c)) /\
  NoDup (map fst (collect_results c)) /\
  (∀ k, k ∈ map fst (collect_results c) <-> k ∈ map fst c).
Proof.
  unfold collect_results. destruct (collect_fold_spec c []) as (H1 & H2 & H3).
  split; [|split].
  - intros k. rewrite H1. destruct (assoc k (reverse c)); reflexivity.
  - apply H2. constructor.
  - intros k. rewrite H3. simpl. split; [intros [H|H]; [apply not_elem_of_nil in H; contradiction|exact H]|tauto].
Qed.

Lemma dec_row_bounds (t : gmap string Z) k lim :
  map_Forall (fun _ c => 0 <= c <= lim) t -> map_Forall (fun _ c => 0 <= c <= lim) (dec_row t k).
Proof.
  intros H. unfold dec_row. destruct (t !! k) as [c|] eqn:Hc; [|exact H].
  apply map_Forall_insert_2; [|exact H]. specialize (H k c Hc). simpl in H. lia.
Qed.

Ltac conn_faults f :=
  destruct f as [[j msg]|]; cbn;
  [destruct j as [|[|[|[|[|[|j]]]]]]|]; cbn; unfold conn_call in *;
  repeat (case_match; cbn in *; simplify_eq); reflexivity.

(** The paths of [check_and_increment_rate_limits]: a user at the limit
    (3 calls), a key at the limit (4 calls), an admission (6 calls); a
    fault in the calls of the path turns it into the error result. *)
Lemma check_paths f d u k :
  let uj := current_jobs (rate_limit_users d) u in
  let kj := current_jobs (rate_limit_api_keys d) k in
  let err m := (d, (false, Some (String.append "rate limiter error: " m))) in
  check_and_increment_rate_limits f d u k =
    if MAX_JOBS_PER_USER <=? uj then
      match fault_within f 3 with
      | Some m => err m | None => (d, (false, Some (limit_msg "user" uj MAX_JOBS_PER_USER))) end
    else if MAX_JOBS_PER_API_KEY <=? kj then
      match fault_within f 4 with
      | Some m => err m | None => (d, (false, Some (limit_msg "api_key" kj MAX_JOBS_PER_API_KEY))) end
    else
      match fault_within f 6 with Some m => err m | None => (bumped d u k, (true, None)) end.
Proof.
  cbv zeta. unfold check_and_increment_rate_limits, check_block, conn_bind, bumped.
  conn_faults f.
Qed.

Lemma decrement_paths f d u k :
  decrement_rate_limits f d u k =
    match fault_within f 4 with
    | Some _ => d
    | None => {| rate_limit_users := dec_row (rate_limit_users d) u;
                 rate_limit_api_keys := dec_row (rate_limit_api_keys d) k |}
    end.
Proof. unfold decrement_rate_limits, decrement_block, conn_bind. conn_faults f. Qed.

Lemma check_result f d u k :
  let '(d', (ok, _)) := check_and_increment_rate_limits f d u k in
  (ok = false /\ d' = d) \/
  (ok = true /\ d' = bumped d u k /\
   current_jobs (rate_limit_users d) u < MAX_JOBS_PER_USER /\
   current_jobs (rate_limit_api_keys d) k < MAX_JOBS_PER_API_KEY).
Proof.
  rewrite check_paths. cbv zeta.
  destruct (Z.leb_spec MAX_JOBS_PER_USER (current_jobs (rate_limit_users d) u));
    [|destruct (Z.leb_spec MAX_JOBS_PER_API_KEY (current_jobs (rate_limit_api_keys d) k))];
    (destruct (fault_within f _); [left; done|]); [left; done|left; done|right; done].
Qed.

Lemma bumped_counts d u k :
  (∀ x, current_jobs (rate_limit_users (bumped d u k)) x =
        current_jobs (rate_limit_users d) x + (if String.eqb x u then 1 else 0)) /\
  (∀ x, current_jobs (rate_limit_api_keys (bumped d u k)) x =
        current_jobs (rate_limit_api_keys d) x + (if String.eqb x k then 1 else 0)).
Proof.
  split; intros x; unfold bumped; simpl; unfold current_jobs at 1.
  - destruct (String.eqb_spec x u) as [->|Hne].
    + rewrite lookup_insert_eq. reflexivity.
    + rewrite lookup_insert_ne by congruence. unfold current_jobs. lia.
  - destruct (String.eqb_spec x k) as [->|Hne].
    + rewrite lookup_insert_eq. reflexivity.
    + rewrite lookup_insert_ne by congruence. unfold current_jobs. lia.
Qed.

Lemma bumped_in_bounds d u k :
  counters_in_bounds d ->
  current_jobs (rate_limit_users d) u < MAX_JOBS_PER_USER ->
  current_jobs (rate_limit_api_keys d) k < MAX_JOBS_PER_API_KEY ->
  counters_in_bounds (bumped d u k).
Proof.
  intros [Hu Hk] Hu' Hk'. unfold bumped, current_jobs in *. simpl. split.
  - apply map_Forall_insert_2; [|exact Hu].
    destruct (rate_limit_users d !! u) as [c|] eqn:Hc; simpl in *; [specialize (Hu u c Hc); simpl in Hu|]; lia.
  - apply map_Forall_insert_2; [|exact Hk].
    destruct (rate_limit_api_keys d !! k) as [c|] eqn:Hc; simpl in *; [specialize (Hk k c Hc); simpl in Hk|]; lia.
Qed.


(** X9: starting from counters within [0, limit], any sequence of checks
    and decrements (each possibly hit by a database fault) keeps every user
    counter within [0, 1] and every key counter within [0, 20]. *)
Theorem counters_stay_in_bounds d ops :
  counters_in_bounds d -> counters_in_bounds (fold_left apply_counter_op ops d).
Proof.
  revert d. induction ops as [|op ops IH]; intros d Hd; simpl; [exact Hd|].
  apply IH. destruct op as [f u k|f u k]; simpl.
  - pose proof (check_result f d u k) as Hr.
    destruct (check_and_increment_rate_limits f d u k) as [d' [ok msg]]. simpl.
    destruct Hr as [[_ ->]|(_ & -> & Hu & Hk)]; [exact Hd|]. by apply bumped_in_bounds.
  - rewrite decrement_paths. destruct (fault_within f 4); [exact Hd|].
    destruct Hd as [Hu Hk]. split; apply dec_row_bounds; assumption.
Qed.

(** X10: a check admits exactly when the user has fewer than 1 and the key
    fewer than 20 jobs and no database call of the check fails; an
    admission adds one to that user's and that key's counters only; a
    rejection leaves the tables unchanged and reports the user limit, the
    key limit or the database error. *)
Theorem check_and_increment_spec f d u k d' ok msg :
  check_and_increment_rate_limits f d u k = (d', (ok, msg)) ->
  (ok = true <-> current_jobs (rate_limit_users d) u < MAX_JOBS_PER_USER /\
                 current_jobs (rate_limit_api_keys d) k < MAX_JOBS_PER_API_KEY /\
                 fault_within f 6 = None) /\
  (ok = true -> msg = None /\
     (∀ x, current_jobs (rate_limit_users d') x =
           current_jobs (rate_limit_users d) x + (if String.eqb x u then 1 else 0)) /\
     (∀ x, current_jobs (rate_limit_api_keys d') x =
           current_jobs (rate_limit_api_keys d) x + (if String.eqb x k then 1 else 0))) /\
  (ok = false -> d' = d /\
     ((MAX_JOBS_PER_USER <= current_jobs (rate_limit_users d) u /\
       msg = Some (limit_msg "user" (current_jobs (rate_limit_users d) u) MAX_JOBS_PER_USER)) \/
      (MAX_JOBS_PER_API_KEY <= current_jobs (rate_limit_api_keys d) k /\
       msg = Some (limit_msg "api_key" (current_jobs (rate_limit_api_keys d) k) MAX_JOBS_PER_API_KEY)) \/
      (∃ i m, f = Some (i, m) /\ msg = Some (String.append "rate limiter error: " m)))).
Proof.
  rewrite check_paths. cbv zeta. pose proof (bumped_counts d u k) as Hb.
  assert (Herr : ∀ n m, fault_within f n = Some m -> ∃ i, f = Some (i, m)).
  { intros n m. destruct f as [[i m']|]; simpl; [|discriminate].
    destruct (i <? n)%nat; [intros [= <-]; eauto|discriminate]. }
  destruct (Z.leb_spec MAX_JOBS_PER_USER (current_jobs (rate_limit_users d) u)) as [Hu|Hu];
    [|destruct (Z.leb_spec MAX_JOBS_PER_API_KEY (current_jobs (rate_limit_api_keys d) k)) as [Hk|Hk]].
  - destruct (fault_within f 3) as [m|] eqn:Ef; intros [= <- <- <-].
    + destruct (Herr _ _ Ef) as [i ->]. split; [split; [discriminate|lia]|].
      split; [discriminate|]. intros _. split; [done|]. right; right; eauto.
    + split; [split; [discriminate|lia]|]. split; [discriminate|]. intros _. split; [done|]. left; done.
  - destruct (fault_within f 4) as [m|] eqn:Ef; intros [= <- <- <-].
    + destruct (Herr _ _ Ef) as [i ->]. split; [split; [discriminate|lia]|].
      split; [discriminate|]. intros _. split; [done|]. right; right; eauto.
    + split; [split; [discriminate|lia]|]. split; [discriminate|]. intros _. split; [done|].
      right; left; done.
  - destruct (fault_within f 6) as [m|] eqn:Ef; intros [= <- <- <-].
    + destruct (Herr _ _ Ef) as [i ->]. split; [split; [discriminate|intros (_ & _ & [=])]|].
      split; [discriminate|]. intros _. split; [done|]. right; right; eauto.
    + split; [tauto|]. split; [intros _; split; [done|exact Hb]|discriminate].
Qed.

(** X11: once a job of a user is admitted, no further check for that user
    (any key, with or without a database fault) is admitted before a
    decrement: it reports the user limit, or a database error. *)
Theorem one_job_per_user f f' d u k k' d1 msg :
  counters_in_bounds d ->
  check_and_increment_rate_limits f d u k = (d1, (true, msg)) ->
  ∃ m, check_and_increment_rate_limits f' d1 u k' = (d1, (false, Some m)) /\
    (m = limit_msg "user" 1 MAX_JOBS_PER_USER \/
     ∃ i e, f' = Some (i, e) /\ m = String.append "rate limiter error: " e).
Proof.
  intros [Hb _] H. pose proof (check_result f d u k) as Hr. rewrite H in Hr.
  destruct Hr as [[[=] _]|(_ & -> & Hu & _)].
  assert (Hc : current_jobs (rate_limit_users (bumped d u k)) u = 1).
  { rewrite (proj1 (bumped_counts d u k)), String.eqb_refl. unfold current_jobs in *.
    unfold MAX_JOBS_PER_USER in Hu.
    destruct (rate_limit_users d !! u) as [c|] eqn:Hc; simpl in *; [|lia].
    specialize (Hb u c Hc). simpl in Hb. lia. }
  rewrite check_paths. cbv zeta. rewrite Hc. simpl.
  destruct f' as [[i e]|]; simpl; [destruct (i <? 3)%nat|]; eexists; (split; [reflexivity|]); eauto.
Qed.


(** X13: [process_classification] tests the returned pair, which is always
    true in Python, so a rejected classification still runs and its finally
    clause decrements the counters: a user already at the limit ends with
    one job fewer when that decrement meets no database fault. *)
Theorem classification_rejection_frees_a_slot f_check d u k :
  MAX_JOBS_PER_USER <= current_jobs (rate_limit_users d) u ->
  (∀ f_dec, classification_job_counters f_check f_dec d u k = decrement_rate_limits f_dec d u k) /\
  current_jobs (rate_limit_users (classification_job_counters f_check None d u k)) u =
    current_jobs (rate_limit_users d) u - 1.
Proof.
  intros Hu.
  assert (Hc : ∀ f_dec, classification_job_counters f_check f_dec d u k = decrement_rate_limits f_dec d u k).
  { intros f_dec. unfold classification_job_counters. rewrite check_paths. cbv zeta.
    rewrite (proj2 (Z.leb_le _ _) Hu). by destruct (fault_within f_check 3). }
  split; [exact Hc|]. rewrite Hc, decrement_paths. simpl.
  unfold current_jobs, dec_row in *. unfold MAX_JOBS_PER_USER in Hu.
  destruct (rate_limit_users d !! u) as [c|] eqn:Hc'; simpl in *; [|lia].
  rewrite lookup_insert_eq. simpl. lia.
Qed.


(** X15: for a payload without a top-level text whose [output] is absent or
    a list of objects, the function returns the text of the first item that
    matches a known shape (that item's first matching content block, else
    its own [text] field); it raises the no-text KeyError exactly when no
    shape matches anywhere, and raises nothing else. *)
Theorem extract_text_first_matching_shape data items :
  output_items data = Some items -> Forall is_obj items ->
  (∀ t, extract_text_from_response data = inr t <->
     top_level_text data = Some t \/
     (top_level_text data = None /\
      ∃ pre it post, items = pre ++ it :: post /\ Forall item_no_shape pre /\ item_first_shape it t)) /\
  (∀ e, extract_text_from_response data = inl e <->
     e = KeyError_no_text /\ top_level_text data = None /\ Forall item_no_shape items).
Proof.
  intros Ho Hobj. destruct (scan_items_objs items Hobj) as (Hn & _ & He).
  assert (Hcode : extract_text_from_response data =
                  match top_level_text data with Some t => inr t | None => scan_items items end).
  { unfold extract_text_from_response, top_level_text. rewrite (iter_items_output _ _ Ho).
    destruct (assoc "output_text" data) as [[]|]; try reflexivity;
      destruct (assoc "content" data) as [[]|]; reflexivity. }
  rewrite Hcode. destruct (top_level_text data) as [t0|]; split.
  - intros t. split; [intros [= <-]; left; reflexivity|intros [H|[H _]]; congruence].
  - intros e. split; [discriminate|intros (_ & H & _); discriminate].
  - intros t. rewrite (scan_items_first items t Hobj).
    split; [intros H; right; auto|intros [H|[_ H]]; [discriminate|exact H]].
  - intros e. split.
    + intros H. pose proof (He e H) as ->. split; [reflexivity|]. split; [reflexivity|].
      apply Hn. exact H.
    + intros (-> & _ & H). apply Hn. exact H.
Qed.

Lemma prefix_iff p m : String.prefix p m = true <-> ∃ s, m = String.append p s.
Proof.
  revert m. induction p as [|a p IH]; intros m.
  - split; [intros _; exists m; reflexivity|intros _; destruct m; reflexivity].
  - destruct m as [|b m]; simpl.
    + split; [discriminate|intros [s Hs]; discriminate].
    + destruct (Ascii.ascii_dec a b) as [->|Hne].
      * rewrite IH. split; intros [s Hs]; exists s; [rewrite Hs|injection Hs]; auto.
      * split; [discriminate|intros [s Hs]; injection Hs; intros; congruence].
Qed.

Lemma occursb_occurs old s : occursb old s = true -> occurs old s.
Proof.
  induction s as [|c s IH]; intros H.
  - change (String.prefix old "" || false = true) in H.
    apply orb_true_iff in H as [H|H]; [|discriminate].
    apply prefix_iff in H as [t Ht]. exists "", t. exact Ht.
  - change (String.prefix old (String c s) || occursb old s = true) in H.
    apply orb_true_iff in H as [H|H].
    + apply prefix_iff in H as [t Ht]. exists "", t. exact Ht.
    + destruct (IH H) as (pre & post & ->). exists (String c pre), post. reflexivity.
Qed.

Lemma replace_go_skip old new t s :
  replace_go old new (String.append t s) (String.length t) = replace_go old new s 0.
Proof. induction t as [|c t IH]; simpl; [reflexivity|exact IH]. Qed.

Lemma replace_head s old new :
  old <> "" -> py_replace (String.append old s) old new = String.append new (py_replace s old new).
Proof.
  intros Hne. destruct old as [|c o]; [congruence|]. unfold py_replace.
  change (String.append (String c o) s) with (String c (String.append o s)). cbn [replace_go].
  assert (Hp : String.prefix (String c o) (String c (String.append o s)) = true)
    by (apply prefix_iff; exists s; reflexivity).
  rewrite Hp. f_equal.
  replace (String.length (String c o) - 1)%nat with (String.length o) by (simpl; lia).
  apply replace_go_skip.
Qed.

Lemma replace_no_occurrence s old new : ¬ occurs old s -> py_replace s old new = s.
Proof.
  unfold py_replace. induction s as [|c s IH]; intros Hn; cbn [replace_go]; [reflexivity|].
  destruct (String.prefix old (String c s)) eqn:Hp.
  - exfalso. apply prefix_iff in Hp as [t Ht]. apply Hn. exists "", t. exact Ht.
  - f_equal. apply IH. intros (pre & post & ->). apply Hn. exists (String c pre), post. reflexivity.
Qed.

(** X16: with a custom template, the PDF text is inserted verbatim (a
    placeholder inside it is not expanded again), and a template without
    the placeholder is returned unchanged. *)
Theorem build_prompt_custom_template files pdf ty :
  (∀ t, build_prompt files pdf {| item_prompt_type := ty; item_prompt := Some (String.append PDF_PLACEHOLDER t) |} =
        inr (String.append pdf (py_replace t PDF_PLACEHOLDER pdf))) /\
  (∀ t, t <> "" -> ¬ occurs PDF_PLACEHOLDER t ->
        build_prompt files pdf {| item_prompt_type := ty; item_prompt := Some t |} = inr t).
Proof.
  split.
  - intros t. unfold build_prompt. simpl. f_equal. apply replace_head. discriminate.
  - intros t Hne Hn. unfold build_prompt. simpl.
    rewrite (proj2 (String.eqb_neq _ _) Hne). f_equal. apply replace_no_occurrence. exact Hn.
Qed.

Lemma existsb_eqb_elem a xs : existsb (String.eqb a) xs = true <-> a ∈ xs.
Proof.
  induction xs as [|x xs IH]; simpl.
  - split; [discriminate|intros H; apply not_elem_of_nil in H; contradiction].
  - rewrite orb_true_iff, elem_of_cons, IH, String.eqb_eq. tauto.
Qed.

Lemma pairs_fst (l : list (string * list string)) t a :
  (t, a) ∈ concat (map (fun '(t, acts) => map (fun a => (t, a)) acts) l) -> t ∈ map fst l.
Proof.
  induction l as [|[t1 as1] l IH]; simpl; intros H.
  - apply not_elem_of_nil in H. contradiction.
  - apply elem_of_app in H as [H|H]; apply elem_of_cons.
    + apply list_elem_of_fmap in H as (x & Hx & _). injection Hx as -> _. left. reflexivity.
    + right. apply IH. exact H.
Qed.

Lemma allowed_default_iff_gen (l : list (string * list string)) tab action :
  NoDup (map fst l) ->
  existsb (String.eqb action) (default [] (assoc tab l)) = true <->
  (tab, action) ∈ concat (map (fun '(t, acts) => map (fun a => (t, a)) acts) l).
Proof.
  induction l as [|[t1 as1] l IH]; simpl; intros Hnd.
  - split; [discriminate|intros H; apply not_elem_of_nil in H; contradiction].
  - apply NoDup_cons in Hnd as [Hn Hnd]. rewrite elem_of_app.
    destruct (String.eqb_spec tab t1) as [->|Hne]; simpl.
    + rewrite existsb_eqb_elem. split.
      * intros H. left. apply list_elem_of_fmap. exists action. split; [reflexivity|exact H].
      * intros [H|H].
        -- apply list_elem_of_fmap in H as (x & Hx & Hin). injection Hx as ->. exact Hin.
        -- apply pairs_fst in H. contradiction.
    + rewrite (IH Hnd). split; [intros H; right; exact H|].
      intros [H|H]; [|exact H].
      apply list_elem_of_fmap in H as (x & Hx & _). injection Hx as -> _. congruence.
Qed.

Lemma lookup_pair_some k v l : lookup_pair k l = Some v -> (k, v) ∈ l.
Proof.
  induction l as [|[k1 v1] l IH]; simpl; intros H; [discriminate|].
  apply elem_of_cons. destruct (String.eqb_spec k.1 k1.1) as [H1|]; simpl in H.
  - destruct (String.eqb_spec k.2 k1.2) as [H2|]; simpl in H.
    + injection H as ->. left. destruct k, k1. simpl in *. subst. reflexivity.
    + right. apply IH. exact H.
  - right. apply IH. exact H.
Qed.

Lemma lookup_pair_elem k l : k ∈ map fst l -> ∃ v, lookup_pair k l = Some v.
Proof.
  induction l as [|[k1 v1] l IH]; simpl; intros H.
  - apply not_elem_of_nil in H. contradiction.
  - apply elem_of_cons in H as [->|H].
    + exists v1. rewrite !String.eqb_refl. reflexivity.
    + destruct (String.eqb k.1 k1.1 && String.eqb k.2 k1.2); [eexists; reflexivity|]. apply IH. exact H.
Qed.

Lemma allowed_focused_tables tab action :
  (_is_allowed_default tab action = true <-> ∃ t, _focused_template_for tab action = inr t) /\
  (∀ t, _focused_template_for tab action = inr t ->
        t <> "" /\ occurs PDF_PLACEHOLDER t /\ occurs RESUME_PLACEHOLDER t).
Proof.
  unfold _focused_template_for. split.
  - unfold _is_allowed_default. rewrite allowed_default_iff_gen by (vm_compute; repeat constructor; set_solver).
    change (concat _) with allowed_pairs.
    replace allowed_pairs with (map fst _FOCUSED_PROMPTS) by reflexivity.
    split.
    + intros H. destruct (lookup_pair_elem _ _ H) as [v Hv]. exists v. rewrite Hv. reflexivity.
    + intros [t Ht]. destruct (lookup_pair (tab, action) _FOCUSED_PROMPTS) as [v|] eqn:Hv; [|discriminate].
      apply lookup_pair_some in Hv. apply list_elem_of_fmap. exists ((tab, action), v). auto.
  - intros t Ht. destruct (lookup_pair (tab, action) _FOCUSED_PROMPTS) as [v|] eqn:Hv; [|discriminate].
    injection Ht as <-. apply lookup_pair_some in Hv.
    assert (Hall : Forall (fun kt => negb (String.eqb kt.2 "") && occursb PDF_PLACEHOLDER kt.2
                                     && occursb RESUME_PLACEHOLDER kt.2 = true) _FOCUSED_PROMPTS)
      by (repeat constructor).
    rewrite Forall_forall in Hall. specialize (Hall _ Hv). simpl in Hall.
    apply andb_true_iff in Hall as [Hall H3]. apply andb_true_iff in Hall as [H1 H2].
    split; [intros ->; discriminate|]. split; apply occursb_occurs; assumption.
Qed.

(** X17: a (tab, action) pair is allowed by default exactly when it has a
    focused template, and every focused template is non-empty and contains
    both placeholders. *)
Theorem default_action_tables_consistent tab action :
  (_is_allowed_default tab action = true <-> ∃ t, _focused_template_for tab action = inr t) /\
  (∀ t, _focused_template_for tab action = inr t ->
        t <> "" /\ occurs PDF_PLACEHOLDER t /\ occurs RESUME_PLACEHOLDER t).
Proof. exact (allowed_focused_tables tab action). Qed.

(** X18: for an allowed default action without an uploaded PDF, the prompt
    is the focused template with the resume JSON put in place of both
    placeholders. *)
Theorem action_default_prompt_without_pdf files tab action resume :
  _is_allowed_default tab action = true ->
  ∃ tpl, _focused_template_for tab action = inr tpl /\
    action_prompt files None tab action "" resume =
      inr (py_replace (py_replace tpl PDF_PLACEHOLDER resume) RESUME_PLACEHOLDER resume).
Proof.
  intros Ha. destruct (allowed_focused_tables tab action) as [[Hin _] Hshape].
  destruct (Hin Ha) as [tpl Ht]. exists tpl. split; [exact Ht|].
  destruct (Hshape tpl Ht) as [Hne _].
  unfold action_prompt. simpl truthy_str. cbv iota. rewrite Ha. simpl negb. cbv iota.
  rewrite Ht. unfold build_prompt. simpl truthy_str.
  rewrite (proj2 (String.eqb_neq _ _) Hne). reflexivity.
Qed.

(** X19: with a custom prompt, the PDF text put in for [{{PDF_TEXT}}] is
    itself searched for [{{USER_RESUME_JSON}}], which is replaced by the
    resume JSON. *)
Theorem action_custom_prompt_rescans_pdf files tab action pdf resume t :
  action_prompt files (Some (String.append PDF_PLACEHOLDER t)) tab action pdf resume =
  inr (py_replace (String.append pdf (py_replace t PDF_PLACEHOLDER pdf)) RESUME_PLACEHOLDER resume).
Proof.
  unfold action_prompt. simpl truthy_str. cbv iota zeta.
  rewrite replace_head by discriminate. reflexivity.
Qed.

Lemma action_budget_bounds_witness :
  (0 <= 1000 < 2 ^ 53) /\
  ACTION_TOKEN_BASE <= calculate_max_output_tokens 1000 "action" None <= ACTION_MAX_OUTPUT_TOKENS /\
  (calculate_max_output_tokens 1000 "action" None = ACTION_MAX_OUTPUT_TOKENS <-> 783 <= 1000).
Proof.
  assert (H : 0 <= 1000 < 2 ^ 53) by (split; [lia|reflexivity]).
  split; [exact H|]. exact (action_budget_bounds 1000 H).
Defined.

Lemma first_json_slice_shape_witness :
  first_json_slice text_note = inr slice_a /\
  ∃ pre post, text_note = pre ++ slice_a ++ post /\ (ch_lbrace ∉ pre) /\
              slice_a !! O = Some ch_lbrace /\ last slice_a = Some ch_rbrace.
Proof.
  assert (H : first_json_slice text_note = inr slice_a) by (vm_compute; reflexivity).
  split; [exact H|]. exact (first_json_slice_shape text_note slice_a H).
Defined.

Lemma first_json_slice_in_context_witness :
  (ch_lbrace ∉ String.list_ascii_of_string "x: ") /\ first_json_slice slice_a = inr slice_a /\
  first_json_slice (String.list_ascii_of_string "x: " ++ slice_a ++ String.list_ascii_of_string "}}") = inr slice_a.
Proof.
  assert (H1 : ch_lbrace ∉ String.list_ascii_of_string "x: ")
    by (apply (bool_decide_unpack _); vm_compute; exact I).
  assert (H2 : first_json_slice slice_a = inr slice_a) by (vm_compute; reflexivity).
  split; [exact H1|]. split; [exact H2|].
  exact (first_json_slice_in_context _ slice_a _ slice_a H1 H2).
Defined.

Lemma first_json_slice_idempotent_witness :
  first_json_slice text_note = inr slice_a /\ first_json_slice slice_a = inr slice_a.
Proof.
  assert (H : first_json_slice text_note = inr slice_a) by (vm_compute; reflexivity).
  split; [exact H|]. exact (first_json_slice_idempotent text_note slice_a H).
Defined.

Lemma merge_results_first_wins_witness :
  merge_results results_example = Some merged_example /\
  (∀ k, k <> "_execution_errors" -> assoc k merged_example = first_with_key k results_example) /\
  assoc "_execution_errors" merged_example =
    match concat (map failure_entry results_example) with
    | [] => first_with_key "_execution_errors" results_example
    | fs => Some (JArr fs)
    end.
Proof.
  assert (H : merge_results results_example = Some merged_example) by (vm_compute; reflexivity).
  split; [exact H|]. exact (merge_results_first_wins results_example merged_example H).
Defined.

Lemma counters_stay_in_bounds_witness :
  counters_in_bounds db0 /\
  counters_in_bounds (fold_left apply_counter_op
    [OpCheck None "user-1" "sk-a"; OpCheck (Some (1%nat, "database is locked")) "user-2" "sk-a";
     OpCheck None "user-1" "sk-a"; OpDecrement (Some (3%nat, "disk I/O error")) "user-1" "sk-a";
     OpDecrement None "user-1" "sk-a"] db0).
Proof.
  assert (H : counters_in_bounds db0) by (split; apply map_Forall_empty).
  split; [exact H|]. exact (counters_stay_in_bounds db0 _ H).
Defined.

Lemma check_and_increment_spec_witness :
  check_and_increment_rate_limits (Some (3%nat, "database is locked")) db0 "user-1" "sk-a" =
    (db0, (false, Some (String.append "rate limiter error: " "database is locked"))) /\
  ((false = true <-> current_jobs (rate_limit_users db0) "user-1" < MAX_JOBS_PER_USER /\
                    current_jobs (rate_limit_api_keys db0) "sk-a" < MAX_JOBS_PER_API_KEY /\
                    fault_within (Some (3%nat, "database is locked")) 6 = None) /\
   (false = true -> Some (String.append "rate limiter error: " "database is locked") = None /\
     (∀ x, current_jobs (rate_limit_users db0) x =
           current_jobs (rate_limit_users db0) x + (if String.eqb x "user-1" then 1 else 0)) /\
     (∀ x, current_jobs (rate_limit_api_keys db0) x =
           current_jobs (rate_limit_api_keys db0) x + (if String.eqb x "sk-a" then 1 else 0))) /\
   (false = false -> db0 = db0 /\
     ((MAX_JOBS_PER_USER <= current_jobs (rate_limit_users db0) "user-1" /\
       Some (String.append "rate limiter error: " "database is locked") =
         Some (limit_msg "user" (current_jobs (rate_limit_users db0) "user-1") MAX_JOBS_PER_USER)) \/
      (MAX_JOBS_PER_API_KEY <= current_jobs (rate_limit_api_keys db0) "sk-a" /\
       Some (String.append "rate limiter error: " "database is locked") =
         Some (limit_msg "api_key" (current_jobs (rate_limit_api_keys db0) "sk-a") MAX_JOBS_PER_API_KEY)) \/
      (∃ i m, Some (3%nat, "database is locked") = Some (i, m) /\
         Some (String.append "rate limiter error: " "database is locked") =
           Some (String.append "rate limiter error: " m))))).
Proof.
  assert (H : check_and_increment_rate_limits (Some (3%nat, "database is locked")) db0 "user-1" "sk-a" =
                (db0, (false, Some (String.append "rate limiter error: " "database is locked"))))
    by (vm_compute; reflexivity).
  split; [exact H|]. exact (check_and_increment_spec _ _ _ _ _ _ _ H).
Defined.

Lemma one_job_per_user_witness :
  counters_in_bounds db0 /\ check_and_increment_rate_limits None db0 "user-1" "sk-a" = (db1, (true, None)) /\
  ∃ m, check_and_increment_rate_limits None db1 "user-1" "sk-b" = (db1, (false, Some m)) /\
    (m = limit_msg "user" 1 MAX_JOBS_PER_USER \/
     ∃ i e, (None : db_fault) = Some (i, e) /\ m = String.append "rate limiter error: " e).
Proof.
  assert (H0 : counters_in_bounds db0) by (split; apply map_Forall_empty).
  assert (H : check_and_increment_rate_limits None db0 "user-1" "sk-a" = (db1, (true, None)))
    by (vm_compute; reflexivity).
  split; [exact H0|]. split; [exact H|].
  exact (one_job_per_user None None db0 "user-1" "sk-a" "sk-b" db1 None H0 H).
Defined.


Lemma classification_rejection_frees_a_slot_witness :
  MAX_JOBS_PER_USER <= current_jobs (rate_limit_users db1) "user-1" /\
  (∀ f_dec, classification_job_counters None f_dec db1 "user-1" "sk-a" =
              decrement_rate_limits f_dec db1 "user-1" "sk-a") /\
  current_jobs (rate_limit_users (classification_job_counters None None db1 "user-1" "sk-a")) "user-1" =
    current_jobs (rate_limit_users db1) "user-1" - 1.
Proof.
  assert (H : MAX_JOBS_PER_USER <= current_jobs (rate_limit_users db1) "user-1")
    by (vm_compute; discriminate).
  split; [exact H|]. exact (classification_rejection_frees_a_slot None db1 "user-1" "sk-a" H).
Defined.

Lemma extract_text_first_matching_shape_witness :
  let items := [JObj [("type", JStr "message");
                      ("content", JArr [JObj [("type", JStr "output_text"); ("text", JStr "hello")]])]] in
  output_items data_blocks = Some items /\ Forall is_obj items /\
  (∀ t, extract_text_from_response data_blocks = inr t <->
     top_level_text data_blocks = Some t \/
     (top_level_text data_blocks = None /\
      ∃ pre it post, items = pre ++ it :: post /\ Forall item_no_shape pre /\ item_first_shape it t)) /\
  (∀ e, extract_text_from_response data_blocks = inl e <->
     e = KeyError_no_text /\ top_level_text data_blocks = None /\ Forall item_no_shape items).
Proof.
  intros items.
  assert (Ho : output_items data_blocks = Some items) by reflexivity.
  assert (Hobj : Forall is_obj items) by (repeat constructor).
  split; [exact Ho|]. split; [exact Hobj|].
  exact (extract_text_first_matching_shape data_blocks items Ho Hobj).
Defined.


Lemma action_default_prompt_without_pdf_witness :
  _is_allowed_default "About" "Shorten" = true /\
  ∃ tpl, _focused_template_for "About" "Shorten" = inr tpl /\
    action_prompt no_prompt_files None "About" "Shorten" "" "{}" =
      inr (py_replace (py_replace tpl PDF_PLACEHOLDER "{}") RESUME_PLACEHOLDER "{}").
Proof.
  assert (H : _is_allowed_default "About" "Shorten" = true) by (vm_compute; reflexivity).
  split; [exact H|]. exact (action_default_prompt_without_pdf no_prompt_files "About" "Shorten" "{}" H).
Defined.

(* ================================================================== *)
(** * Unit checks *)

Example retry_after_2 : rate_limit_headers (Some (2 # 1)) = [("Retry-After", "2")].
Proof. reflexivity. Qed.
Example retry_after_1_2 : rate_limit_headers (Some (12 # 10)) = [("Retry-After", "2")].
Proof. reflexivity. Qed.
Example retry_after_0_5 : rate_limit_headers (Some (5 # 10)) = [("Retry-After", "1")].
Proof. reflexivity. Qed.
Example detail_480 : rpm_detail {| OPENAI_RPM_PER_KEY := 480; OPENAI_RPM_FAIL_FAST := true;
  OPENAI_MAX_CONCURRENCY_PER_KEY := 0 |} =
  "OpenAI RPM limit exceeded for API key. Configured limit: 480/minute.".
Proof. reflexivity. Qed.

Example act5 : calculate_max_output_tokens 5 "action" None = 548. Proof. vm_compute. reflexivity. Qed.
Example am : ACTION_TOKEN_MULTIPLIER = {| mant := 8106479329266893; expo := -50 |}. Proof. vm_compute. reflexivity. Qed.
Example a782 : calculate_max_output_tokens 782 "action" None = 6143. Proof. vm_compute. reflexivity. Qed.
Example a783 : calculate_max_output_tokens 783 "action" None = 6144. Proof. vm_compute. reflexivity. Qed.

Example ex_replace : py_replace "a{{PDF_TEXT}}b{{PDF_TEXT}}" PDF_PLACEHOLDER "{{PDF_TEXT}}" = "a{{PDF_TEXT}}b{{PDF_TEXT}}".
Proof. vm_compute. reflexivity. Qed.
Example ex_replace2 : py_replace "xx{{PDF_TEXT}}y" PDF_PLACEHOLDER "Z" = "xxZy".
Proof. vm_compute. reflexivity. Qed.
